(** * The SQL gate of the HR assistant (groq_trial2.py)

  A shallow embedding of [sanitize_sql], [validate_sql], [generate_sql] and
  [execute_sql], together with the fragments of Python's [str] and [re]
  they rely on, then of the rest of the bot ([load_schema],
  [generate_answer], [ask_hr_bot], [calculate_experience]) and of the
  typing effect of the chat page.

  A Python [str] is a sequence of code points.  Here a string is a Rocq
  [string], read as the sequence of its code points, all below 256; the
  character classes of [str.lower], [str.strip] and of the regular
  expression engine are the ones Python uses on that range.  [Wide]
  repeats [validate_sql] over an alphabet with two code points from
  beyond, where lower-casing no longer keeps the words of a text. *)

From Stdlib Require Import Bool Arith NArith ZArith Lia List Ascii String.
From Stdlib Require Import DecimalString.
From Equations Require Import Equations.
Import ListNotations.

Open Scope string_scope.

(** ** Code points *)

Module Char.

Definition code (c : ascii) : N := N_of_ascii c.

Definition between (lo hi : N) (c : ascii) : bool :=
  ((lo <=? code c) && (code c <=? hi))%N.

Definition codeis (n : N) (c : ascii) : bool := (code c =? n)%N.

(** [str.isspace] on one code point: the characters [str.strip] removes. *)
Definition isspace (c : ascii) : bool :=
  between 9 13 c || between 28 32 c || codeis 133 c || codeis 160 c.

(** [str.isupper] restricted to the letters [str.lower] changes. *)
Definition isupper (c : ascii) : bool :=
  between 65 90 c || between 192 214 c || between 216 222 c.

Definition isalpha (c : ascii) : bool :=
  between 65 90 c || between 97 122 c
  || codeis 170 c || codeis 181 c || codeis 186 c
  || between 192 214 c || between 216 246 c || between 248 255 c.

(** Decimal digits and the other numeric characters of the range:
    superscripts one, two, three and the vulgar fractions. *)
Definition isnumeric (c : ascii) : bool :=
  between 48 57 c || between 178 179 c || codeis 185 c || between 188 190 c.

Definition isalnum (c : ascii) : bool := isalpha c || isnumeric c.

(** The class [\w] of the [re] module on [str] patterns. *)
Definition is_word (c : ascii) : bool := isalnum c || codeis 95 c.

Definition lower (c : ascii) : ascii :=
  if isupper c then ascii_of_N (code c + 32) else c.

Definition backtick : ascii := "`"%char.

Definition newline : ascii := "010"%char.

End Char.

(** ** Strings *)

Module Str.

Definition head (s : string) : option ascii :=
  match s with
  | "" => None
  | String c _ => Some c
  end.

Fixpoint last (s : string) : option ascii :=
  match s with
  | "" => None
  | String c s' => match s' with
                   | "" => Some c
                   | String _ _ => last s'
                   end
  end.

(** [s.lower()]; on code points below 256 it maps character to
    character.  [Wide.lower] has two code points from beyond. *)
Fixpoint lower (s : string) : string :=
  match s with
  | "" => ""
  | String c s' => String (Char.lower c) (lower s')
  end.

(** [s.lstrip()] *)
Fixpoint lstrip (s : string) : string :=
  match s with
  | "" => ""
  | String c s' => if Char.isspace c then lstrip s' else s
  end.

(** [s.rstrip()] *)
Fixpoint rstrip (s : string) : string :=
  match s with
  | "" => ""
  | String c s' =>
      match rstrip s' with
      | "" => if Char.isspace c then "" else String c ""
      | String _ _ as r => String c r
      end
  end.

(** [s.strip()] *)
Definition strip (s : string) : string := rstrip (lstrip s).

(** [s.startswith(p)] *)
Fixpoint startswith (s p : string) {struct p} : bool :=
  match p, s with
  | "", _ => true
  | String _ _, "" => false
  | String a p', String b s' => Ascii.eqb a b && startswith s' p'
  end.

(** [s.replace(c, "")] for a one-character [c]. *)
Fixpoint remove (c : ascii) (s : string) : string :=
  match s with
  | "" => ""
  | String a s' => if Ascii.eqb a c then remove c s' else String a (remove c s')
  end.

(** [sep.join(parts)] *)
Fixpoint join (sep : string) (parts : list string) : string :=
  match parts with
  | [] => ""
  | [p] => p
  | p :: ps => p ++ sep ++ join sep ps
  end.

(** [c in s] *)
Fixpoint contains_char (c : ascii) (s : string) : bool :=
  match s with
  | "" => false
  | String a s' => Ascii.eqb a c || contains_char c s'
  end.

(** No character of [s] is whitespace. *)
Fixpoint no_space (s : string) : bool :=
  match s with
  | "" => true
  | String a s' => negb (Char.isspace a) && no_space s'
  end.

End Str.

(** ** The two regular expressions of the module *)

Module Re.

(** A literal of the pattern matched at the start of [s]; the result is
    what follows the match. *)
Fixpoint literal (lit s : string) : option string :=
  match lit, s with
  | "", _ => Some s
  | String _ _, "" => None
  | String a lit', String b s' =>
      if Ascii.eqb a b then literal lit' s' else None
  end.

(** The same under [re.IGNORECASE]; the literals of the pattern are
    written in lower case.  Among the code points below 256 a letter of the
    pattern matches itself and its capital, which is what is tested here;
    beyond them the letter s also matches the long s (U+017F), which no
    string of this file holds. *)
Fixpoint literal_ci (lit s : string) : option string :=
  match lit, s with
  | "", _ => Some s
  | String _ _, "" => None
  | String a lit', String b s' =>
      if Ascii.eqb a (Char.lower b) then literal_ci lit' s' else None
  end.

(** [\b] between two neighbours; beyond either end of the text there is
    no word character. *)
Definition word_at (c : option ascii) : bool :=
  match c with
  | Some a => Char.is_word a
  | None => false
  end.

Definition boundary (prev next : option ascii) : bool :=
  negb (Bool.eqb (word_at prev) (word_at next)).

(** The alternation [```sql|```] at the start of [s], first alternative
    first. *)
Definition fence (s : string) : option string :=
  match literal_ci "```sql" s with
  | Some rest => Some rest
  | None => literal_ci "```" s
  end.

(** The character before the position reached once [alt] has been
    matched after [prev]. *)
Definition last_matched (prev : option ascii) (alt : string) : option ascii :=
  match Str.last alt with
  | Some c => Some c
  | None => prev
  end.

(** [\b(insert|update|delete|drop|alter|truncate|exec|merge|create)\b]
    tried at one position of the text: [prev] is the character before the
    position, [s] the text from the position on.  The alternatives are
    tried in order, each followed by the closing [\b], whose left
    neighbour is the last character matched. *)
Definition word_alternation (alts : list string) (prev : option ascii)
    (s : string) : bool :=
  boundary prev (Str.head s)
  && existsb (fun alt =>
                match literal alt s with
                | Some rest => boundary (last_matched prev alt) (Str.head rest)
                | None => false
                end) alts.

(** [re.search] with that pattern: every position is tried, from the
    left, up to and including the end of the text. *)
Fixpoint search_from (alts : list string) (prev : option ascii)
    (s : string) : bool :=
  word_alternation alts prev s
  || match s with
     | "" => false
     | String c s' => search_from alts (Some c) s'
     end.

Definition search_words (alts : list string) (s : string) : bool :=
  search_from alts None s.

Definition inspect {A} (a : A) : {b : A | a = b} := exist _ a eq_refl.

(** [re.sub(r"```sql|```", "", s, flags=re.IGNORECASE)]: the text is
    scanned from the left; a match is dropped and the scan goes on after
    it, any other character is kept. *)
Equations? sub_fence (s : string) : string by wf (String.length s) lt :=
  sub_fence "" := "";
  sub_fence (String c s') with inspect (fence (String c s')) := {
    | exist _ (Some rest) H := sub_fence rest;
    | exist _ None _ := String c (sub_fence s') }.
Proof.
  - assert (shorter : forall lit t r,
               literal_ci lit t = Some r -> lit <> "" ->
               String.length r < String.length t).
    { induction lit as [|a lit IH]; intros t r E Hne; [congruence|].
      destruct t as [|b t]; simpl in E; [discriminate|].
      destruct (Ascii.eqb a (Char.lower b)); [|discriminate].
      destruct lit as [|a' lit].
      - simpl in E. injection E as <-. simpl. lia.
      - assert (String.length r < String.length t)
          by (apply IH; [exact E|discriminate]).
        simpl. lia. }
    unfold fence in H.
    destruct (literal_ci "```sql" (String c s')) as [r|] eqn:E.
    + injection H as <-. apply (shorter _ _ _ E). discriminate.
    + apply (shorter _ _ _ H). discriminate.
Qed.

End Re.

(** ** The gate *)

Module Gate.

Inductive exn : Type :=
| ValueError (msg : string)
| TypeError (msg : string)
| DriverError (msg : string).

Definition result (A : Type) : Type := (exn + A)%type.

(** The alternatives of [FORBIDDEN_SQL_PATTERN], in the order of the
    pattern. *)
Definition FORBIDDEN_WORDS : list string :=
  ["insert"; "update"; "delete"; "drop"; "alter"; "truncate"; "exec";
   "merge"; "create"].

Definition FORBIDDEN_SQL_PATTERN (s : string) : bool :=
  Re.search_words FORBIDDEN_WORDS s.

(** The two ways [validate_sql] fails; the specification calls them
    NotAReadQuery and ForbiddenKeyword. *)
Definition NotAReadQuery : exn := ValueError "Only SELECT queries allowed".
Definition ForbiddenKeyword : exn := ValueError "Unsafe SQL detected".

Definition sanitize_sql (sql : string) : string :=
  let sql := Re.sub_fence sql in
  Str.strip (Str.remove Char.backtick sql).

Definition validate_sql (sql : string) : result unit :=
  let sql_lower := Str.strip (Str.lower sql) in
  if negb (Str.startswith sql_lower "select") then inl NotAReadQuery
  else if FORBIDDEN_SQL_PATTERN sql_lower then inl ForbiddenKeyword
  else inr tt.

End Gate.

(** ** Generation and execution around the gate *)

Module Pipeline.

Import Gate.

(** The settings read from the environment when the module is loaded. *)
Record config : Type := {
  GROQ_API_KEY : option string;
  MODEL_NAME : string;
  DB_NAME : option string;
  DB_SERVER : option string
}.

(** A replacement field of an f-string. *)
Definition fmt (v : option string) : string :=
  match v with
  | Some s => s
  | None => "None"
  end.

Definition nl : string := String Char.newline "".

(** Calls made on the database driver, in order. *)
Inductive event : Type :=
| Connect (dsn : string)
| Cursor
| Execute (sql : string)
| Fetchall
| Close.

(** One entry of [cursor.description]; only the name is read. *)
Record column : Type := { col_name : string; col_type : string }.

(** [dict(pairs)]: a later pair with a key already present replaces the
    value and keeps the place of the key. *)
Fixpoint dict_set {V : Type} (k : string) (v : V) (d : list (string * V))
    : list (string * V) :=
  match d with
  | [] => [(k, v)]
  | (k', v') :: d' =>
      if String.eqb k' k then (k', v) :: d' else (k', v') :: dict_set k v d'
  end.

Definition dict {V : Type} (pairs : list (string * V)) : list (string * V) :=
  fold_left (fun d kv => dict_set (fst kv) (snd kv) d) pairs [].

(** Computations that call the driver: the calls made so far are threaded
    through, and an exception ends the computation. *)
Definition io (A : Type) : Type := list event -> result A * list event.

Definition ret {A : Type} (a : A) : io A := fun tr => (inr a, tr).

Definition raise {A : Type} (e : exn) : io A := fun tr => (inl e, tr).

Definition bind {A B : Type} (m : io A) (k : A -> io B) : io B :=
  fun tr =>
    match m tr with
    | (inl e, tr') => (inl e, tr')
    | (inr a, tr') => k a tr'
    end.

Definition emit (ev : event) : io unit := fun tr => (inr tt, (tr ++ [ev])%list).

Definition lift {A : Type} (r : result A) : io A :=
  match r with
  | inl e => raise e
  | inr a => ret a
  end.

Notation "x <- m ;; k" := (bind m (fun x => k))
  (at level 61, m at next level, right associativity).
Notation "m ;;; k" := (bind m (fun _ => k))
  (at level 61, right associativity).

Section Collaborators.

(** Cell values of a result row. *)
Variable value : Type.

Variable cfg : config.

(** The completion service: model, temperature, system message and user
    message give the content of the first choice, or an exception. *)
Variable completion : string -> N -> string -> string -> result string.

(** The database server: whether a connection string is accepted, and
    what a statement gives: the description of the result set, if there is
    one, and its rows. *)
Variable server_connect : string -> option exn.
Variable server_execute :
  string -> result (option (list column) * list (list value)).

Definition groq_call (prompt : string) (temperature : N) : result string :=
  match completion (MODEL_NAME cfg) temperature
          "You are a precise enterprise HR assistant." prompt with
  | inl e => inl e
  | inr content => inr (Str.strip content)
  end.

Definition connection_string : string :=
  "DRIVER={ODBC Driver 17 for SQL Server};"
  ++ "SERVER=" ++ fmt (DB_SERVER cfg) ++ ";"
  ++ "DATABASE=" ++ fmt (DB_NAME cfg) ++ ";"
  ++ "Trusted_Connection=yes;".

Definition get_connection : io unit :=
  emit (Connect connection_string) ;;;
  match server_connect connection_string with
  | Some e => raise e
  | None => ret tt
  end.

Definition schema_text (schema : list (string * list string)) : string :=
  Str.join nl
    (map (fun tc => fst tc ++ "(" ++ Str.join ", " (snd tc) ++ ")") schema).

Definition sql_prompt (question : string)
    (schema : list (string * list string)) : string :=
  Str.join nl
    [ "";
      "You are an expert SQL Server developer.";
      "";
      "Task:";
      "- Generate a fully correct SELECT query for the user question.";
      "- Include in SELECT all columns that are:";
      "    - Used in WHERE, JOIN, GROUP BY, ORDER BY";
      "    - Relevant for a human-readable answer";
      "- Always use LEFT JOIN for related tables unless filtering requires INNER JOIN";
      "- Use dbo.TableName syntax";
      "- Do not invent any column names";
      "- Use TOP, ORDER BY, GROUP BY only if required";
      "";
      "Database Schema:";
      schema_text schema;
      "";
      "User Question:";
      question;
      "";
      "Return ONLY the raw SQL.";
      "" ].

Definition generate_sql (question : string)
    (schema : list (string * list string)) : result string :=
  match groq_call (sql_prompt question schema) 0 with
  | inl e => inl e
  | inr raw_sql =>
      let sql := sanitize_sql raw_sql in
      match validate_sql sql with
      | inl e => inl e
      | inr _ => inr sql
      end
  end.

Definition execute_sql (sql : string) : io (list (list (string * value))) :=
  lift (validate_sql sql) ;;;
  get_connection ;;;
  emit Cursor ;;;
  emit (Execute sql) ;;;
  res <- lift (server_execute sql) ;;
  description <- match fst res with
                 | Some d => ret d
                 | None => raise (TypeError "'NoneType' object is not iterable")
                 end ;;
  let cols := map col_name description in
  emit Fetchall ;;;
  let rows := snd res in
  emit Close ;;;
  ret (map (fun row => dict (combine cols row)) rows).

End Collaborators.

End Pipeline.

(** ** Sample inputs *)

Module Samples.

Import Gate Pipeline.

(** A fenced answer of the completion service: the statement on a line
    of its own between an opening fence tagged sql and a closing fence. *)
Definition fenced_select : string :=
  "```sql" ++ nl ++ "SELECT Name FROM dbo.Employees" ++ nl ++ "```".

Definition sample_config : config :=
  {| GROQ_API_KEY := Some "key";
     MODEL_NAME := "openai/gpt-oss-20b";
     DB_NAME := Some "hr";
     DB_SERVER := Some "localhost" |}.

(** A completion service that always answers with [fenced_select], with
    a trailing newline. *)
Definition sample_completion (model : string) (temperature : N)
    (system user : string) : result string :=
  inr (fenced_select ++ nl).

(** A server that accepts every connection and answers every statement
    with one column and one row. *)
Definition sample_connect (dsn : string) : option exn := None.

Definition sample_execute (sql : string)
    : result (option (list column) * list (list nat)) :=
  inr (Some [ {| col_name := "Name"; col_type := "str" |} ], [[7]]).

End Samples.

(** ** The rest of the bot: schema loading, answers, the full pipeline *)

Module Bot.

Import Gate Pipeline.

(** The statement [load_schema] runs, as the triple-quoted literal spells
    it. *)
Definition SCHEMA_QUERY : string :=
  nl ++ "        SELECT TABLE_NAME, COLUMN_NAME"
  ++ nl ++ "        FROM INFORMATION_SCHEMA.COLUMNS"
  ++ nl ++ "        ORDER BY TABLE_NAME, ORDINAL_POSITION"
  ++ nl ++ "    ".

(** [d.get(k)] on a mapping kept in insertion order. *)
Fixpoint lookup {V : Type} (k : string) (d : list (string * V)) : option V :=
  match d with
  | [] => None
  | (k', v) :: d' => if String.eqb k' k then Some v else lookup k d'
  end.

(** [schema.setdefault(table, []).append(column)] *)
Fixpoint setdefault_append (table column : string)
    (schema : list (string * list string)) : list (string * list string) :=
  match schema with
  | [] => [(table, [column])]
  | (t, cols) :: rest =>
      if String.eqb t table then (t, (cols ++ [column])%list) :: rest
      else (t, cols) :: setdefault_append table column rest
  end.

(** The loop of [load_schema] over the fetched rows. *)
Definition group_columns (rows : list (string * string))
    : list (string * list string) :=
  fold_left (fun schema row => setdefault_append (fst row) (snd row) schema)
    rows [].

(** The rows a schema stands for, table by table. *)
Definition schema_rows (schema : list (string * list string))
    : list (string * string) :=
  flat_map (fun tc => map (pair (fst tc)) (snd tc)) schema.

(** The columns the rows give for one table, in the order of the rows. *)
Definition columns_of (table : string) (rows : list (string * string))
    : list string :=
  map snd (filter (fun row => String.eqb (fst row) table) rows).

(** Rows of one table stand together: a table left behind does not come
    back. *)
Fixpoint grouped (tables : list string) : Prop :=
  match tables with
  | [] => True
  | t :: rest => (hd_error rest = Some t \/ ~ In t rest) /\ grouped rest
  end.

(** The mapping [ask_hr_bot] returns. *)
Record reply (value : Type) : Type := {
  sql : string;
  answer : string;
  raw_data : list (list (string * value))
}.

Arguments sql {value}.
Arguments answer {value}.
Arguments raw_data {value}.

Section Collaborators.

Variable value : Type.

Variable cfg : config.

Variable completion : string -> N -> string -> string -> result string.

Variable server_connect : string -> option exn.

(** What the server gives for the catalog statement: rows of a table name
    and a column name. *)
Variable server_catalog : string -> result (list (string * string)).

Variable server_execute :
  string -> result (option (list column) * list (list value)).

(** [json.dumps(data, default=str)] *)
Variable json_dumps : list (list (string * value)) -> string.

Definition load_schema : io (list (string * list string)) :=
  get_connection cfg server_connect ;;;
  emit Cursor ;;;
  emit (Execute SCHEMA_QUERY) ;;;
  rows <- lift (server_catalog SCHEMA_QUERY) ;;
  emit Fetchall ;;;
  let schema := group_columns rows in
  emit Close ;;;
  ret schema.

Definition answer_prompt (question : string)
    (data : list (list (string * value))) : string :=
  Str.join nl
    [ "";
      "You are a senior HR assistant.";
      "";
      "Question:";
      question;
      "";
      "Database Result:";
      json_dumps data;
      "";
      "Rules:";
      "- Give concise, human-readable answers";
      "- If multiple rows, use numbered list";
      "- Include experience where relevant";
      "- Do not invent data";
      "" ].

Definition generate_answer (question : string)
    (data : list (list (string * value))) : result string :=
  groq_call cfg completion (answer_prompt question data) 0.

Definition ask_hr_bot (question : string) : io (reply value) :=
  schema <- load_schema ;;
  sql <- lift (generate_sql cfg completion question schema) ;;
  data <- execute_sql value cfg server_connect server_execute sql ;;
  answer <- lift (generate_answer question data) ;;
  ret {| sql := sql; answer := answer; raw_data := data |}.

End Collaborators.

End Bot.

(** ** Sample collaborators of the bot *)

Module BotSamples.

Import Gate Pipeline.

(** A catalog of two tables, ordered as the statement asks. *)
Definition sample_catalog (sql : string) : result (list (string * string)) :=
  inr [ ("Departments", "Id"); ("Departments", "Title");
        ("Employees", "Id"); ("Employees", "Name");
        ("Employees", "DepartmentId") ].

Definition sample_dumps (data : list (list (string * nat))) : string :=
  "[...]".

(** A completion service that answers with a statement the gate rejects. *)
Definition unsafe_completion (model : string) (temperature : N)
    (system user : string) : result string :=
  inr "SELECT 1; DROP TABLE dbo.Employees".

End BotSamples.

(** ** Deleting characters *)

Module Deletion.

(** [t] is [s] with some characters deleted. *)
Inductive subsequence : string -> string -> Prop :=
| sub_empty : subsequence "" ""
| sub_keep (c : ascii) (t s : string) :
    subsequence t s -> subsequence (String c t) (String c s)
| sub_drop (c : ascii) (t s : string) :
    subsequence t s -> subsequence t (String c s).

End Deletion.

(** ** Experience *)

Module Experience.

(** What [calculate_experience] is written for: no date, a date, or a
    date with a time of day.  A date is its day number ([toordinal]); the
    difference of two dates is the difference of their day numbers. *)
Inductive joining : Type :=
| NoDate
| Date (ordinal : Z)
| Datetime (ordinal : Z) (microseconds : N).

(** [str(n)] for an [int]. *)
Definition str_int (n : Z) : string :=
  DecimalString.NilZero.string_of_int (Z.to_int n).

(** The two numbers of the answer, from the days between the dates. *)
Definition years_of (days : Z) : Z := (days / 365)%Z.

Definition months_of (days : Z) : Z := ((days mod 365) / 30)%Z.

(** [today] is what [date.today()] gives. *)
Definition calculate_experience (today : Z) (joining_date : joining) : string :=
  match joining_date with
  | NoDate => "N/A"
  | Date d | Datetime d _ =>
      let days := (today - d)%Z in
      let years := years_of days in
      let months := months_of days in
      str_int years ++ " years " ++ str_int months ++ " months"
  end.

End Experience.

(** ** The typing effect of the chat page (trial1.py) *)

Module Chat.

(** [s.split()]: [word] holds the characters of the word being read. *)
Fixpoint split_from (word s : string) : list string :=
  match s with
  | "" => match word with
          | "" => []
          | String _ _ => [word]
          end
  | String c s' =>
      if Char.isspace c then
        match word with
        | "" => split_from "" s'
        | String _ _ => word :: split_from "" s'
        end
      else split_from (word ++ String c "") s'
  end.

Definition split (s : string) : list string := split_from "" s.

(** The loop over the words: each turn appends the word and a space to
    [full_text] and shows the text so far.  The result lists what is
    shown, in order. *)
Fixpoint typing_from (full_text : string) (words : list string) : list string :=
  match words with
  | [] => []
  | word :: rest =>
      let full_text := full_text ++ word ++ " " in
      full_text :: typing_from full_text rest
  end.

Definition typing_effect (answer : string) : list string :=
  typing_from "" (split answer).

(** What a word of [split] is: not empty, and free of whitespace. *)
Definition proper_word (w : string) : Prop :=
  w <> "" /\ Str.no_space w = true.

(** The words in a row, each followed by one space. *)
Fixpoint spaced (words : list string) : string :=
  match words with
  | [] => ""
  | word :: rest => word ++ " " ++ spaced rest
  end.

End Chat.

(** ** validate_sql on text with code points beyond 255

    Below 256 [str.lower] maps one character to one character and keeps
    word characters word characters.  Beyond, it need not: the capital I
    with dot above, a letter, becomes a small i followed by a combining dot
    above, which is no word character.  This module repeats [validate_sql]
    over an alphabet that holds these two code points beside those below
    256; on text below 256 it is the [validate_sql] above. *)

Module Wide.

Import Gate.

Inductive codepoint : Type :=
| Below256 (a : ascii)
| CapitalIDotAbove      (* U+0130 *)
| CombiningDotAbove.    (* U+0307 *)

Definition text : Type := list codepoint.

Fixpoint of_string (s : string) : text :=
  match s with
  | "" => []
  | String c s' => Below256 c :: of_string s'
  end.

Definition eqb (a b : codepoint) : bool :=
  match a, b with
  | Below256 x, Below256 y => Ascii.eqb x y
  | CapitalIDotAbove, CapitalIDotAbove => true
  | CombiningDotAbove, CombiningDotAbove => true
  | _, _ => false
  end.

Fixpoint text_eqb (s t : text) : bool :=
  match s, t with
  | [], [] => true
  | a :: s', b :: t' => eqb a b && text_eqb s' t'
  | _, _ => false
  end.

Definition isspace (c : codepoint) : bool :=
  match c with
  | Below256 a => Char.isspace a
  | CapitalIDotAbove | CombiningDotAbove => false
  end.

(** The class [\w]: a letter is in it, a combining mark is not. *)
Definition is_word (c : codepoint) : bool :=
  match c with
  | Below256 a => Char.is_word a
  | CapitalIDotAbove => true
  | CombiningDotAbove => false
  end.

(** What [str.lower] makes of one code point. *)
Definition lower_codepoint (c : codepoint) : text :=
  match c with
  | Below256 a => [Below256 (Char.lower a)]
  | CapitalIDotAbove => [Below256 "i"; CombiningDotAbove]
  | CombiningDotAbove => [CombiningDotAbove]
  end.

(** [s.lower()] *)
Definition lower (s : text) : text := flat_map lower_codepoint s.

Definition head (s : text) : option codepoint :=
  match s with
  | [] => None
  | c :: _ => Some c
  end.

Fixpoint last (s : text) : option codepoint :=
  match s with
  | [] => None
  | c :: s' => match s' with
               | [] => Some c
               | _ :: _ => last s'
               end
  end.

(** [s.lstrip()] *)
Fixpoint lstrip (s : text) : text :=
  match s with
  | [] => []
  | c :: s' => if isspace c then lstrip s' else s
  end.

(** [s.rstrip()] *)
Fixpoint rstrip (s : text) : text :=
  match s with
  | [] => []
  | c :: s' =>
      match rstrip s' with
      | [] => if isspace c then [] else [c]
      | (_ :: _) as r => c :: r
      end
  end.

(** [s.strip()] *)
Definition strip (s : text) : text := rstrip (lstrip s).

(** [s.startswith(p)] *)
Fixpoint startswith (s p : text) {struct p} : bool :=
  match p, s with
  | [], _ => true
  | _ :: _, [] => false
  | a :: p', b :: s' => eqb a b && startswith s' p'
  end.

Fixpoint literal (lit s : text) : option text :=
  match lit, s with
  | [], _ => Some s
  | _ :: _, [] => None
  | a :: lit', b :: s' => if eqb a b then literal lit' s' else None
  end.

Definition word_at (c : option codepoint) : bool :=
  match c with
  | Some a => is_word a
  | None => false
  end.

Definition boundary (prev next : option codepoint) : bool :=
  negb (Bool.eqb (word_at prev) (word_at next)).

Definition last_matched (prev : option codepoint) (alt : text)
    : option codepoint :=
  match last alt with
  | Some c => Some c
  | None => prev
  end.

Definition word_alternation (alts : list text) (prev : option codepoint)
    (s : text) : bool :=
  boundary prev (head s)
  && existsb (fun alt =>
                match literal alt s with
                | Some rest => boundary (last_matched prev alt) (head rest)
                | None => false
                end) alts.

Fixpoint search_from (alts : list text) (prev : option codepoint)
    (s : text) : bool :=
  word_alternation alts prev s
  || match s with
     | [] => false
     | c :: s' => search_from alts (Some c) s'
     end.

Definition search_words (alts : list text) (s : text) : bool :=
  search_from alts None s.

Definition FORBIDDEN_WORDS : list text := map of_string Gate.FORBIDDEN_WORDS.

Definition FORBIDDEN_SQL_PATTERN (s : text) : bool :=
  search_words FORBIDDEN_WORDS s.

Definition validate_sql (sql : text) : result unit :=
  let sql_lower := strip (lower sql) in
  if negb (startswith sql_lower (of_string "select")) then inl NotAReadQuery
  else if FORBIDDEN_SQL_PATTERN sql_lower then inl ForbiddenKeyword
  else inr tt.

(** The vocabulary of the specification, on this alphabet. *)

Definition boundary_between (before after : text) : Prop :=
  word_at (last before) <> word_at (head after).

Definition only_inside_identifiers (s : text) : Prop :=
  forall kw pre w suf,
    In kw FORBIDDEN_WORDS ->
    s = (pre ++ w ++ suf)%list ->
    lower w = kw ->
    ~ (boundary_between pre (w ++ suf)%list
       /\ boundary_between (pre ++ w)%list suf).

(** Every way to cut a text in two, and in three. *)
Fixpoint cuts (s : text) : list (text * text) :=
  ([], s)
  :: match s with
     | [] => []
     | c :: s' => map (fun ab => (c :: fst ab, snd ab)) (cuts s')
     end.

Definition cuts3 (s : text) : list (text * (text * text)) :=
  flat_map (fun ab => map (pair (fst ab)) (cuts (snd ab))) (cuts s).

(** The condition of [only_inside_identifiers] at one cut, decided. *)
Definition stands_as_word (pre w suf : text) : bool :=
  existsb (text_eqb (lower w)) FORBIDDEN_WORDS
  && boundary (last pre) (head (w ++ suf)%list)
  && boundary (last (pre ++ w)%list) (head suf).

Definition inside_identifiers_only (s : text) : bool :=
  forallb (fun c => negb (stands_as_word (fst c) (fst (snd c)) (snd (snd c))))
    (cuts3 s).

(** An identifier that begins with the capital I with dot above and goes
    on with the letters of a forbidden word. *)
Definition dotted_identifier : text :=
  (of_string "select " ++ [CapitalIDotAbove] ++ of_string "drop from t")%list.

End Wide.

(** ** The vocabulary of the specification *)

Module Spec.

Import Gate.

(** There is a word boundary between the text [before] a position and
    the text [after] it. *)
Definition boundary_between (before after : string) : Prop :=
  Re.word_at (Str.last before) <> Re.word_at (Str.head after).

(** [kw] stands in [s] as a whole word, in any casing: some stretch [w]
    of [s] spells [kw] when lower-cased and has a word boundary on both
    sides. *)
Definition occurs_as_word (kw s : string) : Prop :=
  exists pre w suf,
    s = pre ++ w ++ suf
    /\ Str.lower w = kw
    /\ boundary_between pre (w ++ suf)
    /\ boundary_between (pre ++ w) suf.

Definition has_forbidden_word (s : string) : Prop :=
  exists kw, In kw FORBIDDEN_WORDS /\ occurs_as_word kw s.

(** The lower-cased text, leading whitespace trimmed, starts with the
    read-only keyword. *)
Definition begins_with_select (s : string) : Prop :=
  Str.startswith (Str.lstrip (Str.lower s)) "select" = true.



(** Wherever the text spells a forbidden word, it does so inside a longer
    identifier: a word boundary is missing on at least one side. *)
Definition only_inside_identifiers (s : string) : Prop :=
  forall kw pre w suf,
    In kw FORBIDDEN_WORDS ->
    s = pre ++ w ++ suf ->
    Str.lower w = kw ->
    ~ (boundary_between pre (w ++ suf) /\ boundary_between (pre ++ w) suf).





Definition no_outer_space (s : string) : Prop :=
  (forall c, Str.head s = Some c -> Char.isspace c = false)
  /\ (forall c, Str.last s = Some c -> Char.isspace c = false).

End Spec.

(** ** Facts about strings *)

Module StrFacts.

Import Str.

Lemma app_nil_r (s : string) : s ++ "" = s.
Proof. induction s as [|c s IH]; simpl; [reflexivity | now rewrite IH]. Qed.

Lemma app_assoc (a b c : string) : (a ++ b) ++ c = a ++ b ++ c.
Proof. induction a as [|x a IH]; simpl; [reflexivity | now rewrite IH]. Qed.

Lemma isspace_lower (c : ascii) : Char.isspace (Char.lower c) = Char.isspace c.
Proof. destruct c as [[] [] [] [] [] [] [] []]; reflexivity. Qed.

Lemma is_word_lower (c : ascii) : Char.is_word (Char.lower c) = Char.is_word c.
Proof. destruct c as [[] [] [] [] [] [] [] []]; reflexivity. Qed.

Lemma space_not_word (c : ascii) : Char.isspace c = true -> Char.is_word c = false.
Proof. destruct c as [[] [] [] [] [] [] [] []]; simpl; intros H; try reflexivity; discriminate H. Qed.

Lemma lower_app (a b : string) : lower (a ++ b) = lower a ++ lower b.
Proof. induction a as [|x a IH]; simpl; [reflexivity | now rewrite IH]. Qed.

(** A split of the lower-cased text comes from a split of the text. *)
Lemma lower_split (s a b : string) :
  lower s = a ++ b ->
  exists a0 b0, s = a0 ++ b0 /\ lower a0 = a /\ lower b0 = b.
Proof.
  revert s. induction a as [|x a IH]; intros s H.
  - exists "", s. auto.
  - destruct s as [|y s]; [discriminate|].
    simpl in H. injection H as Hx Hs.
    destruct (IH _ Hs) as (a0 & b0 & -> & Ha & Hb).
    exists (String y a0), b0. simpl. rewrite Ha, Hx. auto.
Qed.

Lemma last_app (a b : string) :
  last (a ++ b) = match last b with Some c => Some c | None => last a end.
Proof.
  induction a as [|x a IH].
  - simpl. destruct (last b); reflexivity.
  - change (String x a ++ b) with (String x (a ++ b)).
    destruct a as [|y a].
    + simpl. destruct b as [|z b]; [reflexivity|].
      destruct (last (String z b)) eqn:E; [reflexivity|].
      exfalso. clear -E. revert z E. induction b as [|w b IHb]; intros z E; simpl in E.
      * discriminate.
      * apply (IHb w). exact E.
    + change (last (String x (String y a ++ b))) with (last (String y a ++ b)).
      rewrite IH. reflexivity.
Qed.

Lemma last_snoc (a : string) (c : ascii) : last (a ++ String c "") = Some c.
Proof. rewrite last_app. reflexivity. Qed.

Lemma word_head_lower (s : string) :
  Re.word_at (head (lower s)) = Re.word_at (head s).
Proof. destruct s; simpl; [reflexivity | apply is_word_lower]. Qed.

Lemma word_last_lower (s : string) :
  Re.word_at (last (lower s)) = Re.word_at (last s).
Proof.
  induction s as [|c s IH]; [reflexivity|].
  destruct s as [|d s]; [simpl; apply is_word_lower | exact IH].
Qed.

End StrFacts.

Module StripFacts.

Import Str StrFacts.

Lemma rstrip_cons (c : ascii) (s : string) :
  Char.isspace c = false -> rstrip (String c s) = String c (rstrip s).
Proof. intros H. simpl. rewrite H. destruct (rstrip s); reflexivity. Qed.

Lemma rstrip_cons_inv (c : ascii) (s : string) :
  rstrip (String c s) = "" -> Char.isspace c = true /\ rstrip s = "".
Proof.
  simpl. destruct (rstrip s); [|discriminate].
  destruct (Char.isspace c); [auto | discriminate].
Qed.

Lemma rstrip_cons_keep (c : ascii) (s : string) :
  rstrip (String c s) <> "" -> rstrip (String c s) = String c (rstrip s).
Proof.
  simpl. destruct (rstrip s); [|reflexivity].
  destruct (Char.isspace c); [congruence | reflexivity].
Qed.

Lemma lstrip_head (s : string) (c : ascii) :
  head (lstrip s) = Some c -> Char.isspace c = false.
Proof.
  induction s as [|a s IH]; simpl; [discriminate|].
  destruct (Char.isspace a) eqn:E; [exact IH|].
  simpl. intros H. injection H as <-. exact E.
Qed.

Lemma rstrip_head (s : string) (c : ascii) :
  head (rstrip s) = Some c -> head s = Some c.
Proof.
  destruct s as [|a s]; [discriminate|].
  destruct (string_dec (rstrip (String a s)) "") as [E|E].
  - rewrite E. discriminate.
  - rewrite (rstrip_cons_keep _ _ E). auto.
Qed.

Lemma rstrip_last (s : string) (c : ascii) :
  last (rstrip s) = Some c -> Char.isspace c = false.
Proof.
  induction s as [|a s IH]; [discriminate|].
  simpl rstrip. destruct (rstrip s) as [|b r] eqn:E.
  - destruct (Char.isspace a) eqn:Ea; [discriminate|].
    simpl. intros H. injection H as <-. exact Ea.
  - exact IH.
Qed.

Lemma lstrip_fixed (s : string) :
  (forall c, head s = Some c -> Char.isspace c = false) -> lstrip s = s.
Proof.
  destruct s as [|a s]; [reflexivity|].
  intros H. simpl. now rewrite (H a eq_refl).
Qed.

Lemma rstrip_fixed (s : string) :
  (forall c, last s = Some c -> Char.isspace c = false) -> rstrip s = s.
Proof.
  induction s as [|a s IH]; [reflexivity|].
  intros H. destruct s as [|b s].
  - simpl. now rewrite (H a eq_refl).
  - pose proof (IH H) as E.
    change (rstrip (String a (String b s)))
      with (match rstrip (String b s) with
            | "" => if Char.isspace a then "" else String a ""
            | String _ _ as r => String a r
            end).
    rewrite E. reflexivity.
Qed.

Lemma strip_no_outer_space (s : string) : Spec.no_outer_space (strip s).
Proof.
  split; intros c H.
  - apply (lstrip_head s). apply rstrip_head. exact H.
  - apply (rstrip_last (lstrip s)). exact H.
Qed.

Lemma strip_fixed (s : string) : Spec.no_outer_space s -> strip s = s.
Proof.
  intros [Hh Hl]. unfold strip. rewrite (lstrip_fixed _ Hh). apply rstrip_fixed, Hl.
Qed.

Lemma strip_idem (s : string) : strip (strip s) = strip s.
Proof. apply strip_fixed, strip_no_outer_space. Qed.

Lemma lstrip_lower (s : string) : lstrip (lower s) = lower (lstrip s).
Proof.
  induction s as [|a s IH]; [reflexivity|].
  simpl. rewrite isspace_lower. destruct (Char.isspace a); [exact IH | reflexivity].
Qed.

End StripFacts.

(** ** Facts about the word search *)

Module ReFacts.

Import Str StrFacts StripFacts Re.

Lemma literal_spec (lit s rest : string) :
  literal lit s = Some rest <-> s = lit ++ rest.
Proof.
  revert s. induction lit as [|a lit IH]; intros s; simpl.
  - split; [intros H; now injection H | intros ->; reflexivity].
  - destruct s as [|b s].
    + split; discriminate.
    + destruct (Ascii.eqb_spec a b) as [->|Hab].
      * rewrite IH. split; [intros ->; reflexivity | intros H; now injection H].
      * split; [discriminate | intros H; injection H; congruence].
Qed.

Lemma boundary_true (p n : option ascii) :
  boundary p n = true <-> word_at p <> word_at n.
Proof. unfold boundary. destruct (word_at p), (word_at n); simpl; split; congruence. Qed.

Lemma boundary_ext (p q n m : option ascii) :
  word_at p = word_at q -> word_at n = word_at m -> boundary p n = boundary q m.
Proof. unfold boundary. now intros -> ->. Qed.

Lemma last_matched_app (p alt : string) :
  last_matched (last p) alt = last (p ++ alt).
Proof. unfold last_matched. now rewrite last_app. Qed.

Lemma last_matched_ext (p q : option ascii) (alt : string) :
  word_at p = word_at q -> word_at (last_matched p alt) = word_at (last_matched q alt).
Proof. unfold last_matched. destruct (last alt); auto. Qed.

Lemma word_alternation_prev (alts : list string) (p q : option ascii) (s : string) :
  word_at p = word_at q -> word_alternation alts p s = word_alternation alts q s.
Proof.
  intros H. unfold word_alternation. f_equal.
  - now apply boundary_ext.
  - induction alts as [|alt alts IH]; [reflexivity|]. simpl. rewrite IH. f_equal.
    destruct (literal alt s); [|reflexivity].
    apply boundary_ext; [now apply last_matched_ext | reflexivity].
Qed.

Lemma search_from_prev (alts : list string) (p q : option ascii) (s : string) :
  word_at p = word_at q -> search_from alts p s = search_from alts q s.
Proof.
  intros H. destruct s; simpl; now rewrite (word_alternation_prev alts p q).
Qed.

(** What the search finds: an alternative standing in the text between
    two word boundaries.  [p] is the text already passed. *)
Lemma search_from_spec (alts : list string) (s p : string) :
  search_from alts (last p) s = true <->
  exists alt pre suf,
    In alt alts /\ s = pre ++ alt ++ suf
    /\ word_at (last (p ++ pre)) <> word_at (head (alt ++ suf))
    /\ word_at (last (p ++ pre ++ alt)) <> word_at (head suf).
Proof.
  assert (here : forall t q,
    word_alternation alts (last q) t = true <->
    exists alt suf, In alt alts /\ t = alt ++ suf
      /\ word_at (last q) <> word_at (head t)
      /\ word_at (last (q ++ alt)) <> word_at (head suf)).
  { intros t q. unfold word_alternation.
    rewrite andb_true_iff, boundary_true, existsb_exists. split.
    - intros (Hb & alt & Hin & Hm).
      destruct (literal alt t) as [rest|] eqn:E; [|discriminate].
      apply literal_spec in E. apply boundary_true in Hm.
      rewrite last_matched_app in Hm. exists alt, rest. auto.
    - intros (alt & suf & Hin & -> & Hb & Hc). split; [exact Hb|].
      exists alt. split; [exact Hin|].
      rewrite (proj2 (literal_spec alt (alt ++ suf) suf) eq_refl).
      apply boundary_true. now rewrite last_matched_app. }
  revert p. induction s as [|c s IH]; intros p.
  - simpl. rewrite orb_false_r, here. split.
    + intros (alt & suf & Hin & E & Hb & Hc).
      exists alt, "", suf. simpl. rewrite app_nil_r. rewrite <- E. auto.
    + intros (alt & pre & suf & Hin & E & Hb & Hc).
      destruct pre; [|discriminate]. simpl in E.
      exists alt, suf. rewrite app_nil_r in Hb. simpl in Hc. rewrite <- E in Hb. auto.
  - simpl. rewrite orb_true_iff, here.
    rewrite <- (last_snoc p c), IH. split.
    + intros [(alt & suf & Hin & E & Hb & Hc) | (alt & pre & suf & Hin & E & Hb & Hc)].
      * exists alt, "", suf. simpl. rewrite app_nil_r, <- E. auto.
      * exists alt, (String c pre), suf. rewrite !app_assoc in Hb, Hc.
        simpl in Hb, Hc. subst s. auto.
    + intros (alt & pre & suf & Hin & E & Hb & Hc). destruct pre as [|d pre].
      * left. exists alt, suf. simpl in E, Hc. rewrite app_nil_r in Hb.
        rewrite <- E in Hb. auto.
      * right. simpl in E. injection E as <- ->.
        exists alt, pre, suf. rewrite !app_assoc. simpl. auto.
Qed.

Lemma search_words_spec (alts : list string) (s : string) :
  search_words alts s = true <->
  exists alt pre suf,
    In alt alts /\ s = pre ++ alt ++ suf
    /\ word_at (last pre) <> word_at (head (alt ++ suf))
    /\ word_at (last (pre ++ alt)) <> word_at (head suf).
Proof. exact (search_from_spec alts s ""). Qed.

(** Whitespace around the text plays no part in the search. *)
Lemma search_lstrip (alts : list string) (p : option ascii) (s : string) :
  word_at p = false -> search_from alts p (lstrip s) = search_from alts p s.
Proof.
  intros Hp. induction s as [|a s IH]; [reflexivity|].
  simpl lstrip. destruct (Char.isspace a) eqn:Ea; [|reflexivity].
  rewrite IH. simpl search_from at 2.
  assert (Hw : word_at (Some a) = false) by (apply space_not_word, Ea).
  unfold word_alternation at 1. unfold boundary at 1.
  change (head (String a s)) with (Some a).
  rewrite Hp, Hw. simpl.
  apply search_from_prev. congruence.
Qed.

Lemma literal_rstrip (alt t : string) :
  no_space alt = true ->
  literal alt (rstrip t) = option_map rstrip (literal alt t).
Proof.
  revert t. induction alt as [|a alt IH]; intros t H; [reflexivity|].
  simpl in H. apply andb_true_iff in H as [Ha Halt]. apply negb_true_iff in Ha.
  destruct t as [|b t]; [reflexivity|].
  simpl literal at 2. destruct (Ascii.eqb_spec a b) as [<-|Hab].
  - rewrite (rstrip_cons _ _ Ha). simpl. rewrite Ascii.eqb_refl. now apply IH.
  - destruct (string_dec (rstrip (String b t)) "") as [E|E].
    + rewrite E. reflexivity.
    + rewrite (rstrip_cons_keep _ _ E). simpl.
      destruct (Ascii.eqb_spec a b); [contradiction | reflexivity].
Qed.

Lemma word_head_rstrip (t : string) :
  word_at (head (rstrip t)) = word_at (head t).
Proof.
  destruct t as [|a t]; [reflexivity|].
  destruct (string_dec (rstrip (String a t)) "") as [E|E].
  - rewrite E. apply rstrip_cons_inv in E as [Ea _].
    simpl. symmetry. now apply space_not_word.
  - now rewrite (rstrip_cons_keep _ _ E).
Qed.

Lemma word_alternation_rstrip (alts : list string) (p : option ascii) (t : string) :
  forallb no_space alts = true ->
  word_alternation alts p (rstrip t) = word_alternation alts p t.
Proof.
  intros H. unfold word_alternation. f_equal.
  - apply boundary_ext; [reflexivity | apply word_head_rstrip].
  - induction alts as [|alt alts IH]; [reflexivity|].
    simpl in H. apply andb_true_iff in H as [Halt Halts].
    simpl. rewrite (IH Halts). f_equal.
    rewrite (literal_rstrip _ _ Halt).
    destruct (literal alt t) as [rest|]; [|reflexivity].
    simpl. apply boundary_ext; [reflexivity | apply word_head_rstrip].
Qed.

Lemma search_rstrip (alts : list string) (p : option ascii) (t : string) :
  forallb no_space alts = true ->
  search_from alts p (rstrip t) = search_from alts p t.
Proof.
  intros H. revert p. induction t as [|a t IH]; intros p; [reflexivity|].
  destruct (string_dec (rstrip (String a t)) "") as [E|E].
  - simpl search_from at 2.
    rewrite <- (word_alternation_rstrip alts p (String a t) H), <- IH.
    rewrite E. apply rstrip_cons_inv in E as [Ea ->].
    assert (Hz : word_alternation alts (Some a) "" = false).
    { unfold word_alternation, boundary. cbn [head word_at].
      now rewrite (space_not_word _ Ea). }
    simpl search_from. now rewrite Hz, !orb_false_r.
  - simpl search_from at 2.
    rewrite <- (word_alternation_rstrip alts p (String a t) H), <- IH.
    rewrite (rstrip_cons_keep _ _ E). reflexivity.
Qed.

Lemma search_words_strip (alts : list string) (s : string) :
  forallb no_space alts = true ->
  search_words alts (strip s) = search_words alts s.
Proof.
  intros H. unfold search_words, strip.
  rewrite (search_rstrip _ _ _ H). now apply search_lstrip.
Qed.

Lemma startswith_rstrip (t p : string) :
  no_space p = true -> startswith (rstrip t) p = startswith t p.
Proof.
  revert t. induction p as [|a p IH]; intros t H.
  - reflexivity.
  - simpl in H. apply andb_true_iff in H as [Ha Hp]. apply negb_true_iff in Ha.
    destruct t as [|b t]; [reflexivity|].
    destruct (Ascii.eqb_spec a b) as [<-|Hab].
    + rewrite (rstrip_cons _ _ Ha). simpl. rewrite Ascii.eqb_refl. now apply IH.
    + destruct (string_dec (rstrip (String b t)) "") as [E|E].
      * rewrite E. simpl. destruct (Ascii.eqb_spec a b); [contradiction | reflexivity].
      * rewrite (rstrip_cons_keep _ _ E). simpl.
        destruct (Ascii.eqb_spec a b); [contradiction | reflexivity].
Qed.

End ReFacts.

(** ** Facts about the gate *)

Module GateFacts.

Import Str StrFacts StripFacts Re ReFacts Gate Spec.

Lemma forbidden_words_no_space : forallb no_space FORBIDDEN_WORDS = true.
Proof. reflexivity. Qed.

Lemma forbidden_strip (s : string) :
  FORBIDDEN_SQL_PATTERN (strip s) = FORBIDDEN_SQL_PATTERN s.
Proof. apply search_words_strip, forbidden_words_no_space. Qed.

(** The pattern, run on the lower-cased text, finds exactly the forbidden
    words standing in the text in any casing. *)
Lemma forbidden_lower (s : string) :
  FORBIDDEN_SQL_PATTERN (lower s) = true <-> has_forbidden_word s.
Proof.
  unfold FORBIDDEN_SQL_PATTERN. rewrite search_words_spec. split.
  - intros (alt & pre' & suf' & Hin & E & Hb & Hc).
    destruct (lower_split _ _ _ E) as (pre & r & -> & <- & Er).
    destruct (lower_split _ _ _ Er) as (w & suf & -> & <- & <-).
    exists (lower w). split; [exact Hin|].
    exists pre, w, suf. repeat split; unfold boundary_between.
    + rewrite <- lower_app, word_last_lower, word_head_lower in Hb. exact Hb.
    + rewrite <- lower_app, word_last_lower, word_head_lower in Hc. exact Hc.
  - intros (kw & Hin & pre & w & suf & -> & <- & Hb & Hc).
    exists (lower w), (lower pre), (lower suf). unfold boundary_between in Hb, Hc.
    rewrite !lower_app. repeat split; [exact Hin| |].
    + now rewrite <- lower_app, word_last_lower, word_head_lower.
    + now rewrite <- lower_app, word_last_lower, word_head_lower.
Qed.

Lemma forbidden_lower_false (s : string) :
  FORBIDDEN_SQL_PATTERN (lower s) = false <-> only_inside_identifiers s.
Proof.
  rewrite <- not_true_iff_false, forbidden_lower. split.
  - intros H kw pre w suf Hin E Hw [Hb Hc]. apply H.
    exists kw. split; [exact Hin|]. exists pre, w, suf. auto.
  - intros H (kw & Hin & pre & w & suf & E & Hw & Hb & Hc).
    apply (H kw pre w suf Hin E Hw). auto.
Qed.

Lemma select_check (s : string) :
  startswith (strip (lower s)) "select" = true <-> begins_with_select s.
Proof.
  unfold begins_with_select, strip. now rewrite startswith_rstrip.
Qed.

Lemma validate_sql_unfold (s : string) :
  validate_sql s =
  if negb (startswith (lstrip (lower s)) "select") then inl NotAReadQuery
  else if FORBIDDEN_SQL_PATTERN (lower s) then inl ForbiddenKeyword
  else inr tt.
Proof.
  unfold validate_sql. cbv zeta. rewrite forbidden_strip.
  unfold strip. now rewrite startswith_rstrip.
Qed.

Lemma errors_differ : NotAReadQuery <> ForbiddenKeyword.
Proof. discriminate. Qed.

End GateFacts.

(** ** Facts about fence removal *)

Module SanitizeFacts.

Import Str StrFacts StripFacts Re Gate Spec.


Lemma contains_remove (c : ascii) (s : string) :
  contains_char c (remove c s) = false.
Proof.
  induction s as [|a s IH]; simpl; [reflexivity|].
  destruct (Ascii.eqb a c) eqn:E; [exact IH|]. simpl. now rewrite E.
Qed.

Lemma remove_fixed (c : ascii) (s : string) :
  contains_char c s = false -> remove c s = s.
Proof.
  induction s as [|a s IH]; simpl; [reflexivity|].
  intros H. apply orb_false_iff in H as [Ha Hs]. now rewrite Ha, IH.
Qed.

Lemma contains_lstrip (c : ascii) (s : string) :
  contains_char c s = false -> contains_char c (lstrip s) = false.
Proof.
  induction s as [|a s IH]; simpl; [reflexivity|].
  intros H. destruct (Char.isspace a); [|exact H].
  apply orb_false_iff in H as [_ Hs]. now apply IH.
Qed.

Lemma contains_rstrip (c : ascii) (s : string) :
  contains_char c s = false -> contains_char c (rstrip s) = false.
Proof.
  induction s as [|a s IH]; [reflexivity|].
  intros H. simpl in H. apply orb_false_iff in H as [Ha Hs].
  specialize (IH Hs). simpl. destruct (rstrip s).
  - destruct (Char.isspace a); simpl; [reflexivity | now rewrite Ha].
  - change (contains_char c (String a (String a0 s0)))
      with (Ascii.eqb a c || contains_char c (String a0 s0)).
    now rewrite Ha, IH.
Qed.

Lemma contains_strip (c : ascii) (s : string) :
  contains_char c s = false -> contains_char c (strip s) = false.
Proof. intros H. now apply contains_rstrip, contains_lstrip. Qed.

Lemma lower_backtick (c : ascii) :
  Char.lower c = Char.backtick -> c = Char.backtick.
Proof. destruct c as [[] [] [] [] [] [] [] []]; simpl; intros H; try reflexivity; discriminate H. Qed.


Lemma fence_none (c : ascii) (s : string) :
  Ascii.eqb c Char.backtick = false -> fence (String c s) = None.
Proof.
  intros H.
  assert (E : Ascii.eqb "`"%char (Char.lower c) = false).
  { destruct (Ascii.eqb_spec "`"%char (Char.lower c)) as [E|E]; [|reflexivity].
    symmetry in E. apply lower_backtick in E. subst c. discriminate H. }
  unfold fence. cbn [literal_ci]. now rewrite E.
Qed.

(** Without a backtick there is nothing to remove. *)
Lemma sub_fence_fixed (s : string) :
  contains_char Char.backtick s = false -> sub_fence s = s.
Proof.
  funelim (sub_fence s); intros Hs.
  - reflexivity.
  - simpl in Hs. apply orb_false_iff in Hs as [Hc _].
    pose proof H as E. rewrite (fence_none _ _ Hc) in E. discriminate E.
  - simpl in Hs. apply orb_false_iff in Hs as [Hc Hs]. f_equal. auto.
Qed.

(** One step of the scan. *)
Lemma sub_fence_step (c : ascii) (s : string) :
  sub_fence (String c s) =
  match fence (String c s) with
  | Some rest => sub_fence rest
  | None => String c (sub_fence s)
  end.
Proof.
  assert (G : forall x : {b : option string | fence (String c s) = b},
             sub_fence_unfold_clause_2 c s x =
             match proj1_sig x with
             | Some rest => sub_fence rest
             | None => String c (sub_fence s)
             end).
  { intros [[r|] E].
    - exact (sub_fence_clause_2_equation_1 c s r E).
    - exact (sub_fence_clause_2_equation_2 c s E). }
  rewrite sub_fence_equation_2. apply (G (inspect (fence (String c s)))).
Qed.

(** A closing fence after a text without backticks. *)
Lemma sub_fence_closing (body : string) :
  contains_char Char.backtick body = false ->
  sub_fence (body ++ "```") = body.
Proof.
  induction body as [|c body IH]; intros H.
  - reflexivity.
  - simpl in H. apply orb_false_iff in H as [Hc Hb].
    change (String c body ++ "```") with (String c (body ++ "```")).
    now rewrite sub_fence_step, (fence_none _ _ Hc), IH.
Qed.

(** An opening fence with the language tag, in any casing. *)
Lemma fence_tagged (tag rest : string) :
  lower tag = "sql" -> fence ("```" ++ tag ++ rest) = Some rest.
Proof.
  intros H.
  destruct tag as [|a [|b [|c [|d tag]]]]; try discriminate H.
  simpl in H. injection H as Ha Hb Hc.
  unfold fence. simpl append. cbn [literal_ci].
  change (Char.lower "`") with "`"%char.
  rewrite Ha, Hb, Hc. reflexivity.
Qed.

(** An opening fence without a tag. *)
Lemma fence_untagged (rest : string) :
  literal_ci "sql" rest = None -> fence ("```" ++ rest) = Some rest.
Proof.
  intros H. unfold fence. simpl append. cbn [literal_ci].
  change (Char.lower "`") with "`"%char.
  change (Ascii.eqb "`" "`") with true. cbv iota.
  cbn [literal_ci] in H.
  destruct rest as [|a rest]; [reflexivity|].
  destruct (Ascii.eqb "s" (Char.lower a)); [|reflexivity].
  destruct rest as [|b rest]; [reflexivity|].
  destruct (Ascii.eqb "q" (Char.lower b)); [|reflexivity].
  destruct rest as [|c rest]; [reflexivity|].
  destruct (Ascii.eqb "l" (Char.lower c)); [discriminate H | reflexivity].
Qed.

Lemma literal_ci_sql_app (body : string) :
  startswith (lower body) "sql" = false ->
  literal_ci "sql" (body ++ "```") = None.
Proof.
  intros H.
  destruct body as [|a [|b [|c body]]];
    cbn [lower startswith append literal_ci] in *.
  - reflexivity.
  - destruct (Ascii.eqb "s" (Char.lower a)); reflexivity.
  - destruct (Ascii.eqb "s" (Char.lower a)); [|reflexivity].
    destruct (Ascii.eqb "q" (Char.lower b)); reflexivity.
  - destruct (Ascii.eqb "s" (Char.lower a)); [|reflexivity].
    destruct (Ascii.eqb "q" (Char.lower b)); [|reflexivity].
    destruct (Ascii.eqb "l" (Char.lower c)); [discriminate H | reflexivity].
Qed.

(** A text without backticks between a tagged opening fence and a closing
    fence: the scan leaves the text. *)
Lemma sub_fence_tagged (tag body : string) :
  lower tag = "sql" ->
  contains_char Char.backtick body = false ->
  sub_fence ("```" ++ tag ++ body ++ "```") = body.
Proof.
  intros Ht Hb.
  pose proof (fence_tagged tag (body ++ "```") Ht) as F.
  cbn [append] in F |- *.
  now rewrite sub_fence_step, F, sub_fence_closing.
Qed.

Lemma sub_fence_untagged (body : string) :
  startswith (lower body) "sql" = false ->
  contains_char Char.backtick body = false ->
  sub_fence ("```" ++ body ++ "```") = body.
Proof.
  intros Hs Hb.
  pose proof (fence_untagged (body ++ "```") (literal_ci_sql_app _ Hs)) as F.
  cbn [append] in F |- *.
  now rewrite sub_fence_step, F, sub_fence_closing.
Qed.

Lemma remove_app (c : ascii) (a b : string) :
  remove c (a ++ b) = remove c a ++ remove c b.
Proof.
  induction a as [|x a IH]; [reflexivity|].
  simpl. destruct (Ascii.eqb x c); [exact IH | simpl; now rewrite IH].
Qed.









Lemma sanitize_sql_no_backtick (s : string) :
  contains_char Char.backtick (sanitize_sql s) = false.
Proof. unfold sanitize_sql. apply contains_strip, contains_remove. Qed.

End SanitizeFacts.

(** ** Facts about the wider alphabet *)

Module WideFacts.

Import Gate Wide.

Local Open Scope list_scope.

Lemma codepoint_eqb_eq (a b : codepoint) : eqb a b = true <-> a = b.
Proof.
  destruct a as [x| |], b as [y| |]; simpl; split; intros H;
    try discriminate H; try reflexivity.
  - apply Ascii.eqb_eq in H. now subst.
  - injection H as ->. apply Ascii.eqb_refl.
Qed.

Lemma text_eqb_eq (s t : text) : text_eqb s t = true <-> s = t.
Proof.
  revert t. induction s as [|a s IH]; intros [|b t]; simpl;
    try (split; [discriminate | discriminate]); [tauto|].
  rewrite andb_true_iff, codepoint_eqb_eq, IH. split.
  - now intros [-> ->].
  - intros H. now injection H.
Qed.

Lemma wide_boundary_true (p n : option codepoint) :
  boundary p n = true <-> word_at p <> word_at n.
Proof.
  unfold boundary. destruct (word_at p), (word_at n); simpl; split; congruence.
Qed.

Lemma cuts_complete (a b : text) : In (a, b) (cuts (a ++ b)).
Proof.
  induction a as [|c a IH]; simpl.
  - destruct b; now left.
  - right. apply in_map_iff. now exists (a, b).
Qed.

Lemma cuts3_complete (pre w suf : text) :
  In (pre, (w, suf)) (cuts3 (pre ++ w ++ suf)).
Proof.
  unfold cuts3. apply in_flat_map. exists (pre, w ++ suf). split.
  - apply cuts_complete.
  - apply in_map_iff. exists (w, suf). split; [reflexivity|].
    apply cuts_complete.
Qed.

(** The check over all cuts decides the condition. *)
Lemma inside_identifiers_only_sound (s : text) :
  inside_identifiers_only s = true -> only_inside_identifiers s.
Proof.
  unfold inside_identifiers_only. rewrite forallb_forall.
  intros H kw pre w suf Hin -> Hw [Hb Hc].
  specialize (H _ (cuts3_complete pre w suf)). simpl in H.
  apply negb_true_iff in H. unfold stands_as_word in H.
  apply wide_boundary_true in Hb, Hc. rewrite Hb, Hc, !andb_true_r in H.
  apply not_true_iff_false in H. apply H.
  apply existsb_exists. exists kw. split; [exact Hin|].
  now apply text_eqb_eq.
Qed.

(** On text below 256 the functions of this module are those on strings. *)

Lemma lower_of_string (s : string) :
  lower (of_string s) = of_string (Str.lower s).
Proof. induction s as [|c s IH]; simpl; [reflexivity | now rewrite <- IH]. Qed.

Lemma lstrip_of_string (s : string) :
  lstrip (of_string s) = of_string (Str.lstrip s).
Proof.
  induction s as [|c s IH]; simpl; [reflexivity|].
  destruct (Char.isspace c); [exact IH | reflexivity].
Qed.

Lemma rstrip_of_string (s : string) :
  rstrip (of_string s) = of_string (Str.rstrip s).
Proof.
  induction s as [|c s IH]; simpl; [reflexivity|].
  rewrite IH. destruct (Str.rstrip s); simpl;
    [destruct (Char.isspace c)|]; reflexivity.
Qed.

Lemma strip_of_string (s : string) :
  strip (of_string s) = of_string (Str.strip s).
Proof. unfold strip, Str.strip. now rewrite lstrip_of_string, rstrip_of_string. Qed.

Lemma startswith_of_string (s p : string) :
  startswith (of_string s) (of_string p) = Str.startswith s p.
Proof.
  revert s. induction p as [|a p IH]; intros s; [reflexivity|].
  destruct s as [|b s]; simpl; [reflexivity | now rewrite IH].
Qed.

Lemma head_of_string (s : string) :
  word_at (head (of_string s)) = Re.word_at (Str.head s).
Proof. destruct s; reflexivity. Qed.

Lemma last_of_string (s : string) :
  last (of_string s) = option_map Below256 (Str.last s).
Proof.
  induction s as [|c s IH]; [reflexivity|].
  destruct s as [|d s]; [reflexivity | exact IH].
Qed.

Lemma literal_of_string (lit s : string) :
  literal (of_string lit) (of_string s) = option_map of_string (Re.literal lit s).
Proof.
  revert s. induction lit as [|a lit IH]; intros s; [reflexivity|].
  destruct s as [|b s]; simpl; [reflexivity|].
  destruct (Ascii.eqb a b); [apply IH | reflexivity].
Qed.

Lemma word_alternation_of_string (alts : list string) (prev : option ascii)
    (s : string) :
  word_alternation (map of_string alts) (option_map Below256 prev) (of_string s)
  = Re.word_alternation alts prev s.
Proof.
  unfold word_alternation, Re.word_alternation. f_equal.
  - unfold boundary, Re.boundary. rewrite head_of_string.
    now destruct prev.
  - induction alts as [|alt alts IH]; [reflexivity|].
    simpl. rewrite IH, literal_of_string. f_equal.
    destruct (Re.literal alt s) as [rest|]; [|reflexivity]. simpl.
    unfold boundary, Re.boundary, last_matched, Re.last_matched.
    rewrite head_of_string, last_of_string.
    destruct (Str.last alt); simpl; [reflexivity | now destruct prev].
Qed.

Lemma search_from_of_string (alts : list string) (prev : option ascii)
    (s : string) :
  search_from (map of_string alts) (option_map Below256 prev) (of_string s)
  = Re.search_from alts prev s.
Proof.
  revert prev. induction s as [|c s IH]; intros prev.
  - simpl. f_equal. apply (word_alternation_of_string alts prev "").
  - simpl. f_equal.
    + apply (word_alternation_of_string alts prev (String c s)).
    + apply (IH (Some c)).
Qed.

Lemma validate_sql_of_string (s : string) :
  validate_sql (of_string s) = Gate.validate_sql s.
Proof.
  unfold validate_sql, Gate.validate_sql. cbv zeta.
  rewrite lower_of_string, strip_of_string, startswith_of_string.
  unfold FORBIDDEN_SQL_PATTERN, Gate.FORBIDDEN_SQL_PATTERN, FORBIDDEN_WORDS,
    search_words, Re.search_words.
  now rewrite (search_from_of_string Gate.FORBIDDEN_WORDS None).
Qed.

(** C3, as stated, fails: in "select İdrop from t" the letters of drop
    stand inside one identifier, since the capital I with dot above before
    them is a letter; yet lower-casing turns that letter into an i and a
    combining mark, the mark is no word character, and validate_sql fails
    with ForbiddenKeyword. *)
Lemma lower_casing_splits_identifier :
  ~ (forall s : text,
       only_inside_identifiers s -> validate_sql s <> inl ForbiddenKeyword).
Proof.
  intros H. apply (H dotted_identifier).
  - apply inside_identifiers_only_sound. vm_compute. reflexivity.
  - vm_compute. reflexivity.
Qed.

End WideFacts.

(** ** Properties of the gate *)

Module Properties.

Import Str StrFacts StripFacts Re ReFacts Gate Spec GateFacts SanitizeFacts.
Import Pipeline Samples.

(** C1, as stated, fails: a text that holds a forbidden word but does not
    begin with the read-only keyword is rejected by the earlier check, with
    NotAReadQuery. *)
Lemma forbidden_word_without_select :
  ~ (forall s, has_forbidden_word s -> validate_sql s = inl ForbiddenKeyword).
Proof.
  intros H. specialize (H "drop table t").
  assert (W : has_forbidden_word "drop table t")
    by (apply forbidden_lower; vm_compute; reflexivity).
  specialize (H W). vm_compute in H. discriminate H.
Qed.

(** C1, amended: every text holding a forbidden word as a whole word, in
    any casing, is rejected; with ForbiddenKeyword when the text begins with
    the read-only keyword (so also when the word comes after a valid
    read-only prefix), and with NotAReadQuery when it does not. *)
Theorem forbidden_word_rejected (s : string) :
  has_forbidden_word s ->
  (begins_with_select s -> validate_sql s = inl ForbiddenKeyword)
  /\ (~ begins_with_select s -> validate_sql s = inl NotAReadQuery).
Proof.
  intros Hw. apply forbidden_lower in Hw.
  rewrite validate_sql_unfold, Hw. unfold begins_with_select.
  destruct (startswith (lstrip (lower s)) "select"); simpl; split; intros H.
  - reflexivity.
  - now contradiction H.
  - discriminate H.
  - reflexivity.
Qed.

Lemma forbidden_word_rejected_witness :
  has_forbidden_word "select * from t; drop table t"
  /\ validate_sql "select * from t; drop table t" = inl ForbiddenKeyword.
Proof.
  assert (W : has_forbidden_word "select * from t; drop table t")
    by (apply forbidden_lower; vm_compute; reflexivity).
  split; [exact W|].
  apply (proj1 (forbidden_word_rejected "select * from t; drop table t" W)).
  vm_compute. reflexivity.
Defined.

(** C2: a text whose lower-cased form, leading whitespace trimmed, does
    not start with select is rejected with NotAReadQuery; hence every text
    validate_sql accepts begins with that keyword, and when the text has
    no whitespace at its ends, as the output of sanitize_sql has, its
    lower-cased form starts with select outright. *)
Theorem not_select_rejected (s : string) :
  (~ begins_with_select s -> validate_sql s = inl NotAReadQuery)
  /\ (validate_sql s = inr tt -> begins_with_select s)
  /\ (validate_sql s = inr tt -> no_outer_space s ->
      startswith (lower s) "select" = true).
Proof.
  assert (A : validate_sql s = inr tt -> begins_with_select s).
  { rewrite validate_sql_unfold. unfold begins_with_select.
    destruct (startswith (lstrip (lower s)) "select"); simpl;
      [reflexivity | discriminate]. }
  split; [|split; [exact A|]].
  - rewrite validate_sql_unfold. unfold begins_with_select.
    destruct (startswith (lstrip (lower s)) "select"); simpl; intros H;
      [now contradiction H | reflexivity].
  - intros V [Hh _]. specialize (A V). unfold begins_with_select in A.
    now rewrite lstrip_lower, (lstrip_fixed _ Hh) in A.
Qed.

Lemma not_select_rejected_witness :
  validate_sql "  Delete from t" = inl NotAReadQuery
  /\ begins_with_select "  SeLeCT 1".
Proof.
  split.
  - apply (proj1 (not_select_rejected "  Delete from t")).
    unfold begins_with_select. vm_compute. discriminate.
  - apply (proj1 (proj2 (not_select_rejected "  SeLeCT 1"))).
    vm_compute. reflexivity.
Defined.

(** C3, amended: for a text of code points below 256, when every
    forbidden word spelled in the text sits inside a longer identifier (a
    word boundary is missing on at least one side), validate_sql does not
    fail with ForbiddenKeyword; if the text begins with the read-only
    keyword it is accepted.  ([WideFacts.lower_casing_splits_identifier]
    shows what a code point beyond 255 can do.) *)
Theorem inside_identifier_not_forbidden (s : string) :
  only_inside_identifiers s ->
  validate_sql s <> inl ForbiddenKeyword
  /\ (begins_with_select s -> validate_sql s = inr tt).
Proof.
  intros H. apply forbidden_lower_false in H.
  rewrite validate_sql_unfold, H. unfold begins_with_select.
  destruct (startswith (lstrip (lower s)) "select"); simpl; split.
  - discriminate.
  - reflexivity.
  - discriminate.
  - discriminate.
Qed.

Lemma inside_identifier_not_forbidden_witness :
  only_inside_identifiers "select createdDate from t"
  /\ validate_sql "select createdDate from t" = inr tt.
Proof.
  assert (W : only_inside_identifiers "select createdDate from t")
    by (apply forbidden_lower_false; vm_compute; reflexivity).
  split; [exact W|].
  apply (proj2 (inside_identifier_not_forbidden "select createdDate from t" W)).
  vm_compute. reflexivity.
Defined.

(** C4: whatever text the completion service gave, when validate_sql
    accepts its sanitized form generate_sql returns that sanitized form,
    character for character: the lower-cased copy made for the checks is not
    what is returned.  When validate_sql rejects it, generate_sql fails with
    that error; and a statement generate_sql returns is always the
    sanitized text, accepted by validate_sql. *)
Theorem generate_sql_round_trip (cfg : config)
    (completion : string -> N -> string -> string -> result string)
    (question : string) (schema : list (string * list string))
    (raw_sql : string) :
  groq_call cfg completion (sql_prompt question schema) 0 = inr raw_sql ->
  (validate_sql (sanitize_sql raw_sql) = inr tt ->
   generate_sql cfg completion question schema = inr (sanitize_sql raw_sql))
  /\ (forall e, validate_sql (sanitize_sql raw_sql) = inl e ->
       generate_sql cfg completion question schema = inl e)
  /\ (forall sql, generate_sql cfg completion question schema = inr sql ->
       sql = sanitize_sql raw_sql /\ validate_sql sql = inr tt).
Proof.
  intros G. unfold generate_sql. rewrite G. cbv zeta.
  split; [|split].
  - intros V. now rewrite V.
  - intros e V. now rewrite V.
  - intros sql H.
    destruct (validate_sql (sanitize_sql raw_sql)) as [e|[]] eqn:V;
      [discriminate H|].
    injection H as <-. auto.
Qed.

Lemma generate_sql_round_trip_witness :
  generate_sql sample_config sample_completion
    "Who works here?" [("Employees", ["Name"])]
  = inr (sanitize_sql fenced_select)
  /\ sanitize_sql fenced_select = "SELECT Name FROM dbo.Employees"
  /\ lower (sanitize_sql fenced_select) <> sanitize_sql fenced_select.
Proof.
  split; [|split].
  - apply (proj1 (generate_sql_round_trip sample_config sample_completion
                    "Who works here?" [("Employees", ["Name"])]
                    fenced_select ltac:(vm_compute; reflexivity))).
    vm_compute. reflexivity.
  - vm_compute. reflexivity.
  - vm_compute. discriminate.
Defined.

(** C9: execute_sql validates before it touches the driver: when
    validate_sql fails on a statement, execute_sql fails with the same
    error and the record of driver calls is as it was, so that nothing was
    connected and nothing executed. *)
Theorem execute_sql_validates_first (value : Type) (cfg : config)
    (server_connect : string -> option exn)
    (server_execute :
       string -> result (option (list column) * list (list value)))
    (sql : string) (e : exn) (tr : list event) :
  validate_sql sql = inl e ->
  execute_sql value cfg server_connect server_execute sql tr = (inl e, tr).
Proof.
  intros H. unfold execute_sql, bind. rewrite H. reflexivity.
Qed.

Lemma execute_sql_validates_first_witness :
  execute_sql nat sample_config sample_connect sample_execute
    "SELECT * FROM dbo.Employees; DROP TABLE dbo.Employees" []
  = (inl ForbiddenKeyword, []).
Proof.
  apply execute_sql_validates_first. vm_compute. reflexivity.
Defined.

(** An accepted statement goes through the driver calls in order and the
    row comes back as a mapping from column name to value. *)
Example execute_sql_accepted :
  execute_sql nat sample_config sample_connect sample_execute
    "SELECT Name FROM dbo.Employees" []
  = (inr [[("Name", 7)]],
     [Connect (connection_string sample_config); Cursor;
      Execute "SELECT Name FROM dbo.Employees"; Fetchall; Close]).
Proof. vm_compute. reflexivity. Qed.

(** C5: "UPDATE dbo.Employees SET Salary = 0" breaks both rules, it does
    not begin with the read-only keyword and it holds a forbidden word, and
    validate_sql reports NotAReadQuery, which is not ForbiddenKeyword: the
    read-only check comes first. *)
Theorem update_is_not_a_read_query :
  validate_sql "UPDATE dbo.Employees SET Salary = 0" = inl NotAReadQuery
  /\ ~ begins_with_select "UPDATE dbo.Employees SET Salary = 0"
  /\ has_forbidden_word "UPDATE dbo.Employees SET Salary = 0"
  /\ NotAReadQuery <> ForbiddenKeyword.
Proof.
  split; [vm_compute; reflexivity|].
  split; [unfold begins_with_select; vm_compute; discriminate|].
  split; [apply forbidden_lower; vm_compute; reflexivity|].
  exact errors_differ.
Qed.




(** C7: sanitize_sql is idempotent. *)
Theorem sanitize_sql_idempotent (s : string) :
  sanitize_sql (sanitize_sql s) = sanitize_sql s.
Proof.
  pose proof (sanitize_sql_no_backtick s) as Hb.
  unfold sanitize_sql at 1.
  rewrite (sub_fence_fixed _ Hb), (remove_fixed _ _ Hb).
  unfold sanitize_sql. apply strip_idem.
Qed.

(** C8: the fenced sample is stripped to exactly
    "SELECT Name FROM dbo.Employees", and validate_sql accepts the stripped
    text. *)
Theorem fenced_select_accepted :
  sanitize_sql fenced_select = "SELECT Name FROM dbo.Employees"
  /\ validate_sql (sanitize_sql fenced_select) = inr tt.
Proof. split; vm_compute; reflexivity. Qed.

(** C10: the read-only check is a prefix test.  Every text whose
    lower-cased, trimmed form begins with the six characters select passes
    it, whatever follows; "selection * from t" is accepted. *)
Theorem select_prefix_passes :
  (forall s, begins_with_select s -> validate_sql s <> inl NotAReadQuery)
  /\ begins_with_select "selection * from t"
  /\ validate_sql "selection * from t" = inr tt.
Proof.
  split; [|split; vm_compute; reflexivity].
  intros s H. rewrite validate_sql_unfold.
  unfold begins_with_select in H. rewrite H. simpl.
  destruct (FORBIDDEN_SQL_PATTERN (lower s)); discriminate.
Qed.

Lemma select_prefix_passes_witness :
  validate_sql "SELECTED drop" <> inl NotAReadQuery.
Proof.
  apply (proj1 select_prefix_passes "SELECTED drop").
  vm_compute. reflexivity.
Defined.

End Properties.

(** ** Facts about mappings kept in insertion order *)

Module MapFacts.

Import Pipeline Bot.

Local Open Scope list_scope.

Lemma lookup_app {V : Type} (k : string) (a b : list (string * V)) :
  lookup k (a ++ b) =
  match lookup k a with
  | Some v => Some v
  | None => lookup k b
  end.
Proof.
  induction a as [|[k' v'] a IH]; simpl; [reflexivity|].
  destruct (String.eqb k' k); [reflexivity | exact IH].
Qed.

Lemma lookup_none {V : Type} (k : string) (d : list (string * V)) :
  lookup k d = None <-> ~ In k (map fst d).
Proof.
  induction d as [|[k' v'] d IH]; simpl; [tauto|].
  destruct (String.eqb_spec k' k) as [->|Hne].
  - split; [discriminate | intros H; exfalso; apply H; now left].
  - rewrite IH. tauto.
Qed.

Lemma lookup_dict_set {V : Type} (q k : string) (v : V) (d : list (string * V)) :
  lookup q (dict_set k v d) = if String.eqb k q then Some v else lookup q d.
Proof.
  induction d as [|[k' v'] d IH]; simpl; [reflexivity|].
  destruct (String.eqb_spec k' k) as [->|Hne]; simpl.
  - destruct (String.eqb k q); reflexivity.
  - rewrite IH. destruct (String.eqb_spec k' q) as [->|Hq]; [|reflexivity].
    destruct (String.eqb_spec k q) as [->|]; [contradiction | reflexivity].
Qed.

Lemma keys_dict_set {V : Type} (k : string) (v : V) (d : list (string * V)) :
  map fst (dict_set k v d) =
  if in_dec string_dec k (map fst d) then map fst d else map fst d ++ [k].
Proof.
  induction d as [|[k' v'] d IH]; simpl; [reflexivity|].
  destruct (String.eqb_spec k' k) as [->|Hne]; simpl.
  - destruct (string_dec k k); [reflexivity | contradiction].
  - rewrite IH. destruct (string_dec k' k); [contradiction|].
    destruct (in_dec string_dec k (map fst d)); reflexivity.
Qed.

Lemma dict_set_fresh {V : Type} (k : string) (v : V) (d : list (string * V)) :
  ~ In k (map fst d) -> dict_set k v d = d ++ [(k, v)].
Proof.
  induction d as [|[k' v'] d IH]; simpl; intros H; [reflexivity|].
  destruct (String.eqb_spec k' k) as [->|Hne]; [exfalso; apply H; now left|].
  rewrite IH; [reflexivity | tauto].
Qed.

Lemma nodup_snoc (k : string) (l : list string) :
  NoDup l -> ~ In k l -> NoDup (l ++ [k]).
Proof.
  intros Hl Hk. induction Hl as [|x l Hx Hl IH]; simpl.
  - constructor; [tauto | constructor].
  - constructor.
    + rewrite in_app_iff. simpl. intros [H|[H|[]]]; [contradiction|].
      apply Hk. now left.
    + apply IH. intros H. apply Hk. now right.
Qed.

Lemma nodup_dict_set {V : Type} (k : string) (v : V) (d : list (string * V)) :
  NoDup (map fst d) -> NoDup (map fst (dict_set k v d)).
Proof.
  intros H. rewrite keys_dict_set.
  destruct (in_dec string_dec k (map fst d)); [exact H | now apply nodup_snoc].
Qed.

Local Abbreviation dict_step :=
  (fun d kv => dict_set (fst kv) (snd kv) d) (only parsing).

Lemma nodup_dict_fold {V : Type} (pairs acc : list (string * V)) :
  NoDup (map fst acc) -> NoDup (map fst (fold_left dict_step pairs acc)).
Proof.
  revert acc. induction pairs as [|[k v] pairs IH]; intros acc H; simpl; [exact H|].
  apply IH. simpl. now apply nodup_dict_set.
Qed.

Lemma lookup_dict_fold {V : Type} (q : string) (pairs acc : list (string * V)) :
  lookup q (fold_left dict_step pairs acc) =
  match lookup q (rev pairs) with
  | Some v => Some v
  | None => lookup q acc
  end.
Proof.
  revert acc. induction pairs as [|[k v] pairs IH]; intros acc; simpl; [reflexivity|].
  rewrite IH, lookup_app. simpl. rewrite lookup_dict_set.
  destruct (lookup q (rev pairs)); [reflexivity|].
  destruct (String.eqb k q); reflexivity.
Qed.

Lemma dict_fold_fresh {V : Type} (pairs acc : list (string * V)) :
  NoDup (map fst (acc ++ pairs)) -> fold_left dict_step pairs acc = acc ++ pairs.
Proof.
  revert acc. induction pairs as [|[k v] pairs IH]; intros acc H; simpl.
  - now rewrite List.app_nil_r.
  - assert (Hk : ~ In k (map fst acc)).
    { rewrite map_app in H. simpl in H. apply NoDup_remove_2 in H.
      intros Hin. apply H. apply in_or_app. now left. }
    rewrite (dict_set_fresh _ _ _ Hk), IH, <- List.app_assoc; [reflexivity|].
    now rewrite <- List.app_assoc.
Qed.

Local Abbreviation group_step :=
  (fun schema row => setdefault_append (fst row) (snd row) schema)
  (only parsing).

Lemma lookup_setdefault_append (q t c : string)
    (schema : list (string * list string)) :
  lookup q (setdefault_append t c schema) =
  if String.eqb t q
  then Some (match lookup q schema with
             | Some cols => cols ++ [c]
             | None => [c]
             end)
  else lookup q schema.
Proof.
  induction schema as [|[t' cols] schema IH]; simpl; [reflexivity|].
  destruct (String.eqb_spec t' t) as [->|Hne]; simpl.
  - destruct (String.eqb t q); reflexivity.
  - rewrite IH. destruct (String.eqb_spec t' q) as [->|Hq]; [|reflexivity].
    destruct (String.eqb_spec t q) as [->|]; [contradiction | reflexivity].
Qed.

Lemma keys_setdefault_append (t c : string)
    (schema : list (string * list string)) :
  map fst (setdefault_append t c schema) =
  if in_dec string_dec t (map fst schema)
  then map fst schema else map fst schema ++ [t].
Proof.
  induction schema as [|[t' cols] schema IH]; simpl; [reflexivity|].
  destruct (String.eqb_spec t' t) as [->|Hne]; simpl.
  - destruct (string_dec t t); [reflexivity | contradiction].
  - rewrite IH. destruct (string_dec t' t); [contradiction|].
    destruct (in_dec string_dec t (map fst schema)); reflexivity.
Qed.

Lemma nodup_group_fold (rows : list (string * string))
    (acc : list (string * list string)) :
  NoDup (map fst acc) -> NoDup (map fst (fold_left group_step rows acc)).
Proof.
  revert acc. induction rows as [|[t c] rows IH]; intros acc H; simpl; [exact H|].
  apply IH. rewrite keys_setdefault_append.
  destruct (in_dec string_dec t (map fst acc)); [exact H | now apply nodup_snoc].
Qed.

Lemma lookup_group_fold (q : string) (rows : list (string * string))
    (acc : list (string * list string)) :
  lookup q (fold_left group_step rows acc) =
  match lookup q acc with
  | Some cols => Some (cols ++ columns_of q rows)
  | None => match columns_of q rows with
            | [] => None
            | (_ :: _) as cols => Some cols
            end
  end.
Proof.
  revert acc. induction rows as [|[t c] rows IH]; intros acc.
  - simpl. destruct (lookup q acc); [now rewrite List.app_nil_r | reflexivity].
  - simpl fold_left. rewrite IH, lookup_setdefault_append.
    unfold columns_of. simpl.
    destruct (String.eqb t q); simpl; [|reflexivity].
    destruct (lookup q acc); [now rewrite <- List.app_assoc | reflexivity].
Qed.

Lemma in_group_fold (q : string) (rows : list (string * string))
    (acc : list (string * list string)) :
  In q (map fst (fold_left group_step rows acc)) <->
  In q (map fst acc) \/ In q (map fst rows).
Proof.
  revert acc. induction rows as [|[t c] rows IH]; intros acc; simpl; [tauto|].
  rewrite IH, keys_setdefault_append.
  destruct (in_dec string_dec t (map fst acc)) as [Hin|Hout].
  - split; [tauto|]. intros [H|[<-|H]]; tauto.
  - rewrite in_app_iff. simpl. tauto.
Qed.

Lemma schema_rows_app (a b : list (string * list string)) :
  schema_rows (a ++ b) = schema_rows a ++ schema_rows b.
Proof. unfold schema_rows. apply flat_map_app. Qed.

Lemma schema_rows_append_fresh (t c : string)
    (schema : list (string * list string)) :
  ~ In t (map fst schema) ->
  schema_rows (setdefault_append t c schema) = schema_rows schema ++ [(t, c)].
Proof.
  induction schema as [|[t' cols] schema IH]; simpl; intros H; [reflexivity|].
  destruct (String.eqb_spec t' t) as [->|Hne]; [exfalso; apply H; now left|].
  unfold schema_rows in *. simpl. rewrite IH; [|tauto].
  now rewrite <- List.app_assoc.
Qed.

Lemma schema_rows_append_last (t c : string) (ks : list string)
    (schema : list (string * list string)) :
  NoDup (map fst schema) ->
  map fst schema = ks ++ [t] ->
  schema_rows (setdefault_append t c schema) = schema_rows schema ++ [(t, c)].
Proof.
  revert ks. induction schema as [|[t' cols] schema IH]; intros ks Hnd E.
  - destruct ks; discriminate E.
  - simpl in *. inversion Hnd as [|? ? Hout Hnd']; subst.
    destruct (String.eqb_spec t' t) as [->|Hne].
    + destruct ks as [|k ks]; simpl in E.
      * injection E as E. apply map_eq_nil in E. subst schema.
        unfold schema_rows. simpl. rewrite !List.app_nil_r. apply map_app.
      * injection E as -> E. exfalso. apply Hout. rewrite E.
        apply in_or_app. right. now left.
    + destruct ks as [|k ks]; simpl in E.
      * injection E as E _. contradiction.
      * injection E as _ E. unfold schema_rows in *. simpl.
        rewrite (IH ks Hnd' E). now rewrite <- List.app_assoc.
Qed.

Lemma grouped_last (l r : list string) (t : string) :
  NoDup l -> In t l -> grouped (l ++ t :: r) -> exists ks, l = ks ++ [t].
Proof.
  induction l as [|x l IH]; intros Hnd Hin Hg; [destruct Hin|].
  inversion Hnd as [|? ? Hx Hnd']; subst.
  destruct l as [|y l].
  - destruct Hin as [->|[]]. now exists [].
  - simpl in Hg. destruct Hg as [[Hy|Hy] Hg].
    + injection Hy as ->. exfalso. apply Hx. now left.
    + destruct Hin as [->|Hin].
      * exfalso. apply Hy. right. apply in_or_app. right. now left.
      * destruct (IH Hnd' Hin Hg) as [ks E]. exists (x :: ks). simpl. now rewrite E.
Qed.

Lemma grouped_drop_repeat (ks r : list string) (t : string) :
  grouped (ks ++ t :: t :: r) -> grouped (ks ++ t :: r).
Proof.
  induction ks as [|x ks IH]; simpl.
  - tauto.
  - intros [Hx Hg]. split; [|now apply IH].
    destruct Hx as [Hx|Hx].
    + left. destruct ks; exact Hx.
    + right. intros Hin. apply Hx. apply in_app_or in Hin as [Hin|Hin].
      * apply in_or_app. now left.
      * apply in_or_app. right. now right.
Qed.

Lemma schema_rows_group_fold (rows : list (string * string))
    (acc : list (string * list string)) :
  NoDup (map fst acc) ->
  grouped (map fst acc ++ map fst rows) ->
  schema_rows (fold_left group_step rows acc) = schema_rows acc ++ rows.
Proof.
  revert acc. induction rows as [|[t c] rows IH]; intros acc Hnd Hg; simpl.
  - now rewrite List.app_nil_r.
  - simpl in Hg.
    assert (Hnd' : NoDup (map fst (setdefault_append t c acc))).
    { rewrite keys_setdefault_append.
      destruct (in_dec string_dec t (map fst acc)); [exact Hnd | now apply nodup_snoc]. }
    destruct (in_dec string_dec t (map fst acc)) as [Hin|Hout].
    + destruct (grouped_last _ _ _ Hnd Hin Hg) as [ks E].
      rewrite IH; [|exact Hnd'|].
      * rewrite (schema_rows_append_last t c ks acc Hnd E).
        now rewrite <- List.app_assoc.
      * rewrite keys_setdefault_append.
        destruct (in_dec string_dec t (map fst acc)); [|contradiction].
        rewrite E in Hg |- *. rewrite <- List.app_assoc in Hg |- *.
        simpl in Hg |- *. now apply grouped_drop_repeat.
    + rewrite IH; [|exact Hnd'|].
      * rewrite (schema_rows_append_fresh t c acc Hout).
        now rewrite <- List.app_assoc.
      * rewrite keys_setdefault_append.
        destruct (in_dec string_dec t (map fst acc)); [contradiction|].
        now rewrite <- List.app_assoc.
Qed.

Lemma in_keys_rev {V : Type} (k : string) (pairs : list (string * V)) :
  In k (map fst (rev pairs)) <-> In k (map fst pairs).
Proof. rewrite map_rev. symmetry. apply in_rev. Qed.

Lemma in_keys_dict {V : Type} (k : string) (pairs : list (string * V)) :
  In k (map fst (dict pairs)) <-> In k (map fst pairs).
Proof.
  rewrite <- (in_keys_rev k pairs).
  pose proof (lookup_none k (dict pairs)) as A.
  pose proof (lookup_none k (rev pairs)) as B.
  unfold dict in *. rewrite lookup_dict_fold in A. simpl in A.
  destruct (lookup k (rev pairs)) as [v|].
  - split; intros H.
    + destruct (in_dec string_dec k (map fst (rev pairs))) as [Hin|Hout];
        [exact Hin|]. apply B in Hout. discriminate Hout.
    + destruct (in_dec string_dec k
                  (map fst (fold_left dict_step pairs []))) as [Hin|Hout];
        [exact Hin|]. apply A in Hout. discriminate Hout.
  - split; intros H; exfalso.
    + now apply (proj1 A eq_refl).
    + now apply (proj1 B eq_refl).
Qed.

Lemma nodup_keys_combine {V : Type} (cols : list string) (row : list V) :
  NoDup cols -> NoDup (map fst (combine cols row)).
Proof.
  intros H. revert row. induction H as [|c cols Hc Hnd IH]; intros row.
  - constructor.
  - destruct row as [|v row]; simpl; constructor.
    + intros Hin. apply Hc. apply in_map_iff in Hin as [[c' v'] [E Hin]].
      simpl in E. subst c'. now apply in_combine_l in Hin.
    + apply IH.
Qed.

Lemma in_keys_combine {V : Type} (k : string) (cols : list string) (row : list V) :
  In k (map fst (combine cols row)) -> In k cols.
Proof.
  intros Hin. apply in_map_iff in Hin as [[c v] [E Hin]].
  simpl in E. subst c. now apply in_combine_l in Hin.
Qed.

End MapFacts.

(** ** Behaviour of the driver calls *)

Module Behaviour.

Import Str StrFacts StripFacts Re ReFacts Gate Spec GateFacts SanitizeFacts.
Import Pipeline Samples Bot MapFacts.

Local Open Scope list_scope.

(** Membership in an explicit list of events, by cases. *)
Ltac in_events H :=
  repeat (destruct H as [H|H];
          [try discriminate H; try (injection H as <-) |]);
  try destruct H.

(** The driver calls of execute_sql, whatever the outcome: the
    connection is closed exactly when rows are returned, and a statement
    reaches the driver only as the argument itself, after validate_sql
    accepted it. *)
Theorem execute_sql_trace (value : Type) (cfg : config)
    (server_connect : string -> option exn)
    (server_execute :
       string -> result (option (list column) * list (list value)))
    (sql : string) (tr : list event) :
  exists evs,
    snd (execute_sql value cfg server_connect server_execute sql tr) = tr ++ evs
    /\ (In Close evs <->
        exists data,
          fst (execute_sql value cfg server_connect server_execute sql tr)
          = inr data)
    /\ (forall q, In (Execute q) evs -> q = sql /\ validate_sql sql = inr tt)
    /\ (forall dsn, In (Connect dsn) evs -> validate_sql sql = inr tt).
Proof.
  unfold execute_sql, get_connection, bind, lift, emit, raise, ret.
  destruct (validate_sql sql) as [e|[]] eqn:V.
  { exists []. simpl. rewrite List.app_nil_r.
    split; [reflexivity|].
    split; [split; [intros [] | intros [data H]; discriminate H]|].
    split; [intros q [] | intros dsn []]. }
  destruct (server_connect (connection_string cfg)) as [e|] eqn:C.
  { exists [Connect (connection_string cfg)]. simpl.
    split; [reflexivity|].
    split; [split; [intros H; in_events H | intros [data H]; discriminate H]|].
    split; [intros q H; in_events H | intros dsn H; reflexivity]. }
  destruct (server_execute sql) as [e|[[description|] rows]] eqn:E.
  - exists [Connect (connection_string cfg); Cursor; Execute sql]. simpl.
    rewrite <- !List.app_assoc.
    split; [reflexivity|].
    split; [split; [intros H; in_events H | intros [data H]; discriminate H]|].
    split; [intros q H; in_events H; auto | intros dsn H; reflexivity].
  - exists [Connect (connection_string cfg); Cursor; Execute sql; Fetchall; Close].
    simpl. rewrite <- !List.app_assoc.
    split; [reflexivity|].
    split; [split; [intros _; eexists; reflexivity | intros _; tauto]|].
    split; [intros q H; in_events H; auto | intros dsn H; reflexivity].
  - exists [Connect (connection_string cfg); Cursor; Execute sql]. simpl.
    rewrite <- !List.app_assoc.
    split; [reflexivity|].
    split; [split; [intros H; in_events H | intros [data H]; discriminate H]|].
    split; [intros q H; in_events H; auto | intros dsn H; reflexivity].
Qed.

(** When execute_sql returns, the server gave a result set; there is one
    mapping per row, each with distinct keys taken from the column names,
    and when the column names are distinct each mapping is the row zipped
    with the names, cell by cell. *)
Theorem execute_sql_rows (value : Type) (cfg : config)
    (server_connect : string -> option exn)
    (server_execute :
       string -> result (option (list column) * list (list value)))
    (sql : string) (tr : list event) (data : list (list (string * value))) :
  fst (execute_sql value cfg server_connect server_execute sql tr) = inr data ->
  exists description rows,
    server_execute sql = inr (Some description, rows)
    /\ List.length data = List.length rows
    /\ (forall d, In d data ->
        NoDup (map fst d) /\ incl (map fst d) (map col_name description))
    /\ (NoDup (map col_name description) ->
        data = map (combine (map col_name description)) rows).
Proof.
  unfold execute_sql, get_connection, bind, lift, emit, raise, ret.
  destruct (validate_sql sql) as [e|[]]; [discriminate|].
  destruct (server_connect (connection_string cfg)); [discriminate|].
  destruct (server_execute sql) as [e|[[description|] rows]];
    simpl; try discriminate.
  intros H. injection H as <-. exists description, rows.
  split; [reflexivity|]. split; [apply length_map|]. split.
  - intros d Hd. apply in_map_iff in Hd as [row [<- _]]. split.
    + apply (nodup_dict_fold _ []). constructor.
    + intros k Hk. apply (proj1 (in_keys_dict _ _)) in Hk.
      now apply in_keys_combine in Hk.
  - intros Hnd. apply map_ext. intros row.
    apply (dict_fold_fresh _ []). simpl. now apply nodup_keys_combine.
Qed.

Lemma execute_sql_rows_witness :
  exists description rows,
    sample_execute "SELECT Name FROM dbo.Employees"
    = inr (Some description, rows)
    /\ List.length [[("Name", 7)]] = List.length rows
    /\ (forall d, In d [[("Name", 7)]] ->
        NoDup (map fst d) /\ incl (map fst d) (map col_name description))
    /\ (NoDup (map col_name description) ->
        [[("Name", 7)]] = map (combine (map col_name description)) rows).
Proof.
  apply (execute_sql_rows nat sample_config sample_connect sample_execute
           "SELECT Name FROM dbo.Employees" []).
  vm_compute. reflexivity.
Defined.

(** dict(pairs): the keys are those of the pairs, each once; a key maps
    to the value of its last pair; and the mapping is the list of pairs
    itself exactly when no key comes twice. *)
Lemma dict_last_wins (V : Type) (pairs : list (string * V)) :
  NoDup (map fst (dict pairs))
  /\ (forall k, In k (map fst (dict pairs)) <-> In k (map fst pairs))
  /\ (forall k, lookup k (dict pairs) = lookup k (rev pairs))
  /\ (dict pairs = pairs <-> NoDup (map fst pairs)).
Proof.
  assert (Hnd : NoDup (map fst (dict pairs)))
    by (apply (nodup_dict_fold _ []); constructor).
  split; [exact Hnd|]. split; [intros k; apply in_keys_dict|]. split.
  - intros k. unfold dict. rewrite lookup_dict_fold.
    now destruct (lookup k (rev pairs)).
  - split; intros H.
    + now rewrite H in Hnd.
    + now apply (dict_fold_fresh _ []).
Qed.

(** Column names that repeat: in each mapping execute_sql returns, a name
    stands for the last cell of the row under that name, and the mapping
    is the row zipped with the names exactly when the names zipped are
    distinct; otherwise the earlier cells are lost. *)
Theorem execute_sql_repeated_names (value : Type) (cfg : config)
    (server_connect : string -> option exn)
    (server_execute :
       string -> result (option (list column) * list (list value)))
    (sql : string) (tr : list event) (data : list (list (string * value))) :
  fst (execute_sql value cfg server_connect server_execute sql tr) = inr data ->
  exists description rows,
    server_execute sql = inr (Some description, rows)
    /\ Forall2
         (fun d row =>
            let zipped := combine (map col_name description) row in
            (forall k, lookup k d = lookup k (rev zipped))
            /\ (d = zipped <-> NoDup (map fst zipped))
            /\ List.length d <= List.length zipped)
         data rows.
Proof.
  unfold execute_sql, get_connection, bind, lift, emit, raise, ret.
  destruct (validate_sql sql) as [e|[]]; [discriminate|].
  destruct (server_connect (connection_string cfg)); [discriminate|].
  destruct (server_execute sql) as [e|[[description|] rows]];
    simpl; try discriminate.
  intros H. injection H as <-. exists description, rows.
  split; [reflexivity|].
  induction rows as [|row rows IH]; simpl; constructor; [|exact IH].
  destruct (dict_last_wins value (combine (map col_name description) row))
    as (Hnd & Hin & Hl & Hd).
  split; [exact Hl|]. split; [exact Hd|].
  apply NoDup_incl_length.
  - assert (Hp : NoDup (map fst (dict (combine (map col_name description) row))))
      by exact Hnd.
    now apply NoDup_map_inv in Hp.
  - intros [k v] Hkv.
    assert (Hk : lookup k (dict (combine (map col_name description) row))
                 = Some v).
    { clear -Hkv Hnd.
      induction (dict (combine (map col_name description) row))
        as [|[k' v'] d IHd]; [destruct Hkv|].
      simpl in Hnd. inversion Hnd as [|? ? Hout Hnd']; subst.
      simpl. destruct Hkv as [E|Hkv].
      - injection E as -> ->. now rewrite String.eqb_refl.
      - destruct (String.eqb_spec k' k) as [->|_]; [|now apply IHd].
        exfalso. apply Hout. apply in_map_iff. now exists (k, v). }
    rewrite Hl in Hk. apply in_rev.
    clear -Hk. induction (rev (combine (map col_name description) row))
      as [|[k' v'] l IHl]; [discriminate Hk|].
    simpl in Hk. destruct (String.eqb_spec k' k) as [->|_].
    + injection Hk as ->. now left.
    + right. now apply IHl.
Qed.

Lemma execute_sql_repeated_names_witness :
  exists description rows,
    sample_execute "SELECT Name FROM dbo.Employees"
    = inr (Some description, rows)
    /\ Forall2
         (fun d row =>
            let zipped := combine (map col_name description) row in
            (forall k, lookup k d = lookup k (rev zipped))
            /\ (d = zipped <-> NoDup (map fst zipped))
            /\ List.length d <= List.length zipped)
         [[("Name", 7)]] rows.
Proof.
  apply (execute_sql_repeated_names nat sample_config sample_connect
           sample_execute "SELECT Name FROM dbo.Employees" []).
  vm_compute. reflexivity.
Defined.

Section Runs.

Variable value : Type.
Variable cfg : config.
Variable completion : string -> N -> string -> string -> result string.
Variable server_connect : string -> option exn.
Variable server_catalog : string -> result (list (string * string)).
Variable server_execute :
  string -> result (option (list column) * list (list value)).
Variable json_dumps : list (list (string * value)) -> string.

Local Abbreviation dsn := (connection_string cfg) (only parsing).

(** The outcomes of load_schema. *)
Lemma load_schema_cases (tr : list event) :
  load_schema cfg server_connect server_catalog tr =
  match server_connect dsn with
  | Some e => (inl e, tr ++ [Connect dsn])
  | None =>
      match server_catalog SCHEMA_QUERY with
      | inl e => (inl e, tr ++ [Connect dsn; Cursor; Execute SCHEMA_QUERY])
      | inr rows =>
          (inr (group_columns rows),
           tr ++ [Connect dsn; Cursor; Execute SCHEMA_QUERY; Fetchall; Close])
      end
  end.
Proof.
  unfold load_schema, get_connection, bind, lift, emit, raise, ret.
  destruct (server_connect (connection_string cfg)); [reflexivity|].
  destruct (server_catalog SCHEMA_QUERY); simpl;
    now rewrite <- !List.app_assoc.
Qed.

(** The outcomes of execute_sql. *)
Lemma execute_sql_cases (sql : string) (tr : list event) :
  execute_sql value cfg server_connect server_execute sql tr =
  match validate_sql sql with
  | inl e => (inl e, tr)
  | inr _ =>
      match server_connect dsn with
      | Some e => (inl e, tr ++ [Connect dsn])
      | None =>
          match server_execute sql with
          | inl e => (inl e, tr ++ [Connect dsn; Cursor; Execute sql])
          | inr (None, _) =>
              (inl (TypeError "'NoneType' object is not iterable"),
               tr ++ [Connect dsn; Cursor; Execute sql])
          | inr (Some description, rows) =>
              (inr (map (fun row =>
                           dict (combine (map col_name description) row))
                      rows),
               tr ++ [Connect dsn; Cursor; Execute sql; Fetchall; Close])
          end
      end
  end.
Proof.
  unfold execute_sql, get_connection, bind, lift, emit, raise, ret.
  destruct (validate_sql sql) as [e|[]]; [reflexivity|].
  destruct (server_connect (connection_string cfg)); [reflexivity|].
  destruct (server_execute sql) as [e|[[description|] rows]]; simpl;
    now rewrite <- !List.app_assoc.
Qed.

Lemma schema_query_valid : validate_sql SCHEMA_QUERY = inr tt.
Proof. vm_compute. reflexivity. Qed.

Lemma generate_sql_inv (question : string)
    (schema : list (string * list string)) (statement : string) :
  generate_sql cfg completion question schema = inr statement ->
  validate_sql statement = inr tt
  /\ exists raw_sql,
       groq_call cfg completion (sql_prompt question schema) 0 = inr raw_sql
       /\ statement = sanitize_sql raw_sql.
Proof.
  unfold generate_sql. intros H.
  destruct (groq_call cfg completion (sql_prompt question schema) 0)
    as [e|raw_sql]; [discriminate H|].
  cbv zeta in H.
  destruct (validate_sql (sanitize_sql raw_sql)) as [e|[]] eqn:V;
    [discriminate H|].
  injection H as <-. split; [exact V|]. now exists raw_sql.
Qed.

(** The driver calls of load_schema, whatever the outcome: the connection
    is closed exactly when a schema is returned, and the only statement
    run is the catalog statement. *)
Theorem load_schema_trace (tr : list event) :
  exists evs,
    snd (load_schema cfg server_connect server_catalog tr) = tr ++ evs
    /\ (In Close evs <->
        exists schema,
          fst (load_schema cfg server_connect server_catalog tr) = inr schema)
    /\ (forall q, In (Execute q) evs -> q = SCHEMA_QUERY).
Proof.
  rewrite load_schema_cases.
  destruct (server_connect (connection_string cfg)) as [e|].
  { exists [Connect (connection_string cfg)]. simpl.
    split; [reflexivity|].
    split; [split; [intros H; in_events H | intros [x H]; discriminate H]|].
    intros q H; in_events H. }
  destruct (server_catalog SCHEMA_QUERY) as [e|rows].
  - exists [Connect (connection_string cfg); Cursor; Execute SCHEMA_QUERY]. simpl.
    split; [reflexivity|].
    split; [split; [intros H; in_events H | intros [x H]; discriminate H]|].
    intros q H; in_events H; reflexivity.
  - exists [Connect (connection_string cfg); Cursor; Execute SCHEMA_QUERY;
            Fetchall; Close]. simpl.
    split; [reflexivity|].
    split; [split; [intros _; eexists; reflexivity | intros _; tauto]|].
    intros q H; in_events H; reflexivity.
Qed.

(** The schema load_schema returns: every table once, and under each
    table the columns its rows name, in the order of the rows; a table
    without a row is absent. *)
Theorem load_schema_groups (tr : list event)
    (schema : list (string * list string)) :
  fst (load_schema cfg server_connect server_catalog tr) = inr schema ->
  exists rows,
    server_catalog SCHEMA_QUERY = inr rows
    /\ NoDup (map fst schema)
    /\ (forall t, lookup t schema =
                  match columns_of t rows with
                  | [] => None
                  | (_ :: _) as cols => Some cols
                  end).
Proof.
  rewrite load_schema_cases.
  destruct (server_connect (connection_string cfg)); [discriminate|].
  destruct (server_catalog SCHEMA_QUERY) as [e|rows]; [discriminate|].
  simpl. intros H. injection H as <-. exists rows.
  split; [reflexivity|]. split.
  - apply (nodup_group_fold rows []). constructor.
  - intros t. unfold group_columns. now rewrite lookup_group_fold.
Qed.

(** When the rows of each table stand together, as the ORDER BY of the
    catalog statement arranges, the schema spells the rows back: table by
    table and column by column it is the list of rows, in order. *)
Theorem load_schema_round_trip (tr : list event)
    (rows : list (string * string)) (schema : list (string * list string)) :
  server_catalog SCHEMA_QUERY = inr rows ->
  grouped (map fst rows) ->
  fst (load_schema cfg server_connect server_catalog tr) = inr schema ->
  schema_rows schema = rows.
Proof.
  intros Hrows Hg. rewrite load_schema_cases, Hrows.
  destruct (server_connect (connection_string cfg)); [discriminate|].
  simpl. intros H. injection H as <-.
  apply (schema_rows_group_fold rows []); [constructor | exact Hg].
Qed.

(** Every statement ask_hr_bot hands to the driver, on success or on
    failure and whatever the completion service answers, is one that
    validate_sql accepts. *)
Theorem ask_hr_bot_executes_checked (question : string) (tr : list event) :
  exists evs,
    snd (ask_hr_bot value cfg completion server_connect server_catalog
           server_execute json_dumps question tr) = tr ++ evs
    /\ forall statement, In (Execute statement) evs ->
         validate_sql statement = inr tt.
Proof.
  unfold ask_hr_bot, bind. rewrite load_schema_cases.
  destruct (server_connect (connection_string cfg)) as [e|] eqn:C.
  { exists [Connect (connection_string cfg)]. simpl.
    split; [reflexivity | intros q H; in_events H]. }
  destruct (server_catalog SCHEMA_QUERY) as [e|rows].
  { exists [Connect (connection_string cfg); Cursor; Execute SCHEMA_QUERY].
    simpl. split; [reflexivity|].
    intros q H; in_events H. apply schema_query_valid. }
  destruct (generate_sql cfg completion question (group_columns rows))
    as [e|statement] eqn:G.
  { exists [Connect (connection_string cfg); Cursor; Execute SCHEMA_QUERY;
            Fetchall; Close].
    simpl. split; [reflexivity|].
    intros q H; in_events H. apply schema_query_valid. }
  destruct (generate_sql_inv _ _ _ G) as [V _].
  simpl. rewrite execute_sql_cases, V, C.
  destruct (server_execute statement) as [e|[[description|] rows']].
  - exists [Connect (connection_string cfg); Cursor; Execute SCHEMA_QUERY;
            Fetchall; Close;
            Connect (connection_string cfg); Cursor; Execute statement].
    rewrite <- List.app_assoc. simpl. split; [reflexivity|].
    intros q H; in_events H; [apply schema_query_valid | exact V].
  - exists [Connect (connection_string cfg); Cursor; Execute SCHEMA_QUERY;
            Fetchall; Close;
            Connect (connection_string cfg); Cursor; Execute statement;
            Fetchall; Close].
    split.
    + destruct (generate_answer _ _ _ _ _ _); unfold lift, raise, ret; simpl;
        now rewrite <- List.app_assoc.
    + intros q H; in_events H; [apply schema_query_valid | exact V].
  - exists [Connect (connection_string cfg); Cursor; Execute SCHEMA_QUERY;
            Fetchall; Close;
            Connect (connection_string cfg); Cursor; Execute statement].
    rewrite <- List.app_assoc. simpl. split; [reflexivity|].
    intros q H; in_events H; [apply schema_query_valid | exact V].
Qed.

(** A successful run of ask_hr_bot: the catalog is read on one
    connection, the generated statement is run on a second one, both are
    closed; the statement returned is the one that was run and
    validate_sql accepts it; the rows returned are the mappings of that
    run, and the answer is what the service made of them. *)
Theorem ask_hr_bot_success (question : string) (tr : list event)
    (r : reply value) :
  fst (ask_hr_bot value cfg completion server_connect server_catalog
         server_execute json_dumps question tr) = inr r ->
  snd (ask_hr_bot value cfg completion server_connect server_catalog
         server_execute json_dumps question tr)
  = tr ++ [Connect dsn; Cursor; Execute SCHEMA_QUERY; Fetchall; Close;
           Connect dsn; Cursor; Execute (sql r); Fetchall; Close]
  /\ validate_sql (sql r) = inr tt
  /\ (exists schema,
        fst (load_schema cfg server_connect server_catalog tr) = inr schema
        /\ generate_sql cfg completion question schema = inr (sql r))
  /\ (exists description rows,
        server_execute (sql r) = inr (Some description, rows)
        /\ raw_data r
           = map (fun row => dict (combine (map col_name description) row))
               rows)
  /\ generate_answer value cfg completion json_dumps question (raw_data r)
     = inr (answer r).
Proof.
  unfold ask_hr_bot, bind. rewrite load_schema_cases.
  destruct (server_connect (connection_string cfg)) as [e|] eqn:C;
    [discriminate|].
  destruct (server_catalog SCHEMA_QUERY) as [e|rows]; [discriminate|].
  destruct (generate_sql cfg completion question (group_columns rows))
    as [e|statement] eqn:G; [discriminate|].
  destruct (generate_sql_inv _ _ _ G) as [V _].
  simpl. rewrite execute_sql_cases, V, C.
  destruct (server_execute statement) as [e|[[description|] rows']] eqn:E;
    try discriminate.
  destruct (generate_answer value cfg completion json_dumps question _)
    as [e|text] eqn:A; unfold lift, raise, ret; simpl; [discriminate|].
  intros H. injection H as <-. simpl.
  split; [now rewrite <- List.app_assoc|].
  split; [exact V|].
  split; [now exists (group_columns rows)|].
  split; [now exists description, rows' | exact A].
Qed.

(** When generate_sql fails on the schema just read, because the service
    failed or the gate rejected its statement, ask_hr_bot fails with that
    error and the driver saw the catalog read only: no second connection,
    no second statement. *)
Theorem ask_hr_bot_rejected (question : string) (tr : list event)
    (schema : list (string * list string)) (e : exn) :
  fst (load_schema cfg server_connect server_catalog tr) = inr schema ->
  generate_sql cfg completion question schema = inl e ->
  ask_hr_bot value cfg completion server_connect server_catalog
    server_execute json_dumps question tr
  = (inl e,
     tr ++ [Connect dsn; Cursor; Execute SCHEMA_QUERY; Fetchall; Close]).
Proof.
  unfold ask_hr_bot, bind. rewrite load_schema_cases.
  destruct (server_connect (connection_string cfg)) as [e'|];
    [discriminate|].
  destruct (server_catalog SCHEMA_QUERY) as [e'|rows]; [discriminate|].
  simpl. intros H. injection H as <-. intros G. now rewrite G.
Qed.

End Runs.

Lemma load_schema_groups_witness :
  exists rows,
    BotSamples.sample_catalog SCHEMA_QUERY = inr rows
    /\ NoDup (map fst [("Departments", ["Id"; "Title"]);
                       ("Employees", ["Id"; "Name"; "DepartmentId"])])
    /\ (forall t,
          lookup t [("Departments", ["Id"; "Title"]);
                    ("Employees", ["Id"; "Name"; "DepartmentId"])]
          = match columns_of t rows with
            | [] => None
            | (_ :: _) as cols => Some cols
            end).
Proof.
  apply (load_schema_groups sample_config sample_connect
           BotSamples.sample_catalog []).
  vm_compute. reflexivity.
Defined.

Lemma load_schema_round_trip_witness :
  schema_rows [("Departments", ["Id"; "Title"]);
               ("Employees", ["Id"; "Name"; "DepartmentId"])]
  = [("Departments", "Id"); ("Departments", "Title");
     ("Employees", "Id"); ("Employees", "Name");
     ("Employees", "DepartmentId")].
Proof.
  apply (load_schema_round_trip sample_config sample_connect
           BotSamples.sample_catalog []).
  - reflexivity.
  - simpl. repeat split; try (left; reflexivity);
      right; intros H; in_events H.
  - vm_compute. reflexivity.
Defined.

Lemma ask_hr_bot_success_witness :
  snd (ask_hr_bot nat sample_config sample_completion sample_connect
         BotSamples.sample_catalog sample_execute BotSamples.sample_dumps
         "Who works here?" [])
  = [] ++ [Connect (connection_string sample_config); Cursor;
           Execute SCHEMA_QUERY; Fetchall; Close;
           Connect (connection_string sample_config); Cursor;
           Execute "SELECT Name FROM dbo.Employees"; Fetchall; Close].
Proof.
  apply (ask_hr_bot_success nat sample_config sample_completion sample_connect
           BotSamples.sample_catalog sample_execute BotSamples.sample_dumps
           "Who works here?" []
           {| sql := "SELECT Name FROM dbo.Employees";
              answer := "```sql" ++ Pipeline.nl
                        ++ "SELECT Name FROM dbo.Employees" ++ Pipeline.nl
                        ++ "```";
              raw_data := [[("Name", 7)]] |}).
  vm_compute. reflexivity.
Defined.

Lemma ask_hr_bot_rejected_witness :
  ask_hr_bot nat sample_config BotSamples.unsafe_completion sample_connect
    BotSamples.sample_catalog sample_execute BotSamples.sample_dumps
    "Remove everybody" []
  = (inl ForbiddenKeyword,
     [] ++ [Connect (connection_string sample_config); Cursor;
            Execute SCHEMA_QUERY; Fetchall; Close]).
Proof.
  apply (ask_hr_bot_rejected nat sample_config BotSamples.unsafe_completion
           sample_connect BotSamples.sample_catalog sample_execute
           BotSamples.sample_dumps "Remove everybody" []
           [("Departments", ["Id"; "Title"]);
            ("Employees", ["Id"; "Name"; "DepartmentId"])]).
  - vm_compute. reflexivity.
  - vm_compute. reflexivity.
Defined.

End Behaviour.

(** ** Whitespace around the text and the gate *)

Module WrapFacts.

Import Str StrFacts StripFacts Re Gate Spec SanitizeFacts.

(** A text is whitespace throughout exactly when [lstrip] leaves nothing. *)
Lemma blank_cons (c : ascii) (w : string) :
  lstrip (String c w) = "" -> Char.isspace c = true /\ lstrip w = "".
Proof.
  simpl. destruct (Char.isspace c); [auto | discriminate].
Qed.

Lemma lstrip_split (s : string) :
  exists a, s = a ++ lstrip s /\ lstrip a = "".
Proof.
  induction s as [|c s (a & E & Ha)]; [now exists ""|].
  simpl. destruct (Char.isspace c) eqn:Ec.
  - exists (String c a). simpl. rewrite Ec, <- E. auto.
  - now exists "".
Qed.

Lemma rstrip_split (s : string) :
  exists b, s = rstrip s ++ b /\ lstrip b = "".
Proof.
  induction s as [|c s (b & E & Hb)]; [now exists ""|].
  simpl. destruct (rstrip s) as [|d r] eqn:R.
  - simpl in E. subst b. destruct (Char.isspace c) eqn:Ec.
    + exists (String c s). simpl. now rewrite Ec.
    + now exists s.
  - exists b. split; [|exact Hb].
    change (String c (String d r) ++ b) with (String c (String d r ++ b)).
    now rewrite <- E.
Qed.

Lemma blank_no_backtick (w : string) :
  lstrip w = "" -> contains_char Char.backtick w = false.
Proof.
  induction w as [|c w IH]; [reflexivity|].
  intros H. apply blank_cons in H as [Hc Hw]. simpl. rewrite (IH Hw).
  destruct (Ascii.eqb_spec c Char.backtick) as [->|]; [discriminate Hc | reflexivity].
Qed.

Lemma lstrip_blank_app (a s : string) :
  lstrip a = "" -> lstrip (a ++ s) = lstrip s.
Proof.
  induction a as [|c a IH]; [reflexivity|].
  intros H. apply blank_cons in H as [Hc Ha]. simpl. rewrite Hc. now apply IH.
Qed.

Lemma rstrip_blank (b : string) : lstrip b = "" -> rstrip b = "".
Proof.
  induction b as [|c b IH]; [reflexivity|].
  intros H. apply blank_cons in H as [Hc Hb]. simpl. now rewrite (IH Hb), Hc.
Qed.

Lemma rstrip_app_blank (s b : string) :
  lstrip b = "" -> rstrip (s ++ b) = rstrip s.
Proof.
  intros Hb. induction s as [|c s IH]; [now apply rstrip_blank|].
  simpl. now rewrite IH.
Qed.

Lemma strip_app_blank (s b : string) :
  lstrip b = "" -> strip (s ++ b) = strip s.
Proof.
  intros Hb. unfold strip. induction s as [|c s IH].
  - simpl. now rewrite Hb.
  - simpl. destruct (Char.isspace c); [exact IH|].
    now apply (rstrip_app_blank (String c s)).
Qed.

Lemma strip_wrapped (a s b : string) :
  lstrip a = "" -> lstrip b = "" -> strip (a ++ s ++ b) = strip s.
Proof.
  intros Ha Hb. unfold strip at 1. rewrite (lstrip_blank_app _ _ Ha).
  now apply strip_app_blank.
Qed.

Lemma literal_ci_app (lit s w rest : string) :
  literal_ci lit s = Some rest -> literal_ci lit (s ++ w) = Some (rest ++ w).
Proof.
  revert s. induction lit as [|a lit IH]; intros s H; simpl in *.
  - now injection H as <-.
  - destruct s as [|b s]; [discriminate|]. simpl.
    destruct (Ascii.eqb a (Char.lower b)); [now apply IH | discriminate].
Qed.

Lemma literal_ci_app_none (lit s w : string) :
  no_space lit = true -> lstrip w = "" ->
  literal_ci lit s = None -> literal_ci lit (s ++ w) = None.
Proof.
  intros Hlit Hw. revert s Hlit.
  induction lit as [|a lit IH]; intros s Hlit H; simpl in *; [discriminate|].
  apply andb_true_iff in Hlit as [Ha Hlit]. apply negb_true_iff in Ha.
  destruct s as [|b s]; simpl.
  - destruct w as [|c w]; [reflexivity|].
    apply blank_cons in Hw as [Hc _].
    destruct (Ascii.eqb_spec a (Char.lower c)) as [->|]; [|reflexivity].
    rewrite isspace_lower, Hc in Ha. discriminate Ha.
  - destruct (Ascii.eqb a (Char.lower b)); [now apply IH | reflexivity].
Qed.

Lemma fence_app_blank (s w : string) :
  lstrip w = "" ->
  fence (s ++ w) = option_map (fun rest => rest ++ w) (fence s).
Proof.
  intros Hw. unfold fence.
  destruct (literal_ci "```sql" s) as [rest|] eqn:E.
  - now rewrite (literal_ci_app _ _ w _ E).
  - rewrite (literal_ci_app_none "```sql" s w eq_refl Hw E).
    destruct (literal_ci "```" s) as [rest|] eqn:F.
    + now rewrite (literal_ci_app _ _ w _ F).
    + now rewrite (literal_ci_app_none "```" s w eq_refl Hw F).
Qed.

Lemma sub_fence_app_blank (s w : string) :
  lstrip w = "" -> sub_fence (s ++ w) = sub_fence s ++ w.
Proof.
  intros Hw. funelim (sub_fence s).
  - simpl. apply sub_fence_fixed. now apply blank_no_backtick.
  - change (String c s' ++ w) with (String c (s' ++ w)).
    rewrite sub_fence_step.
    change (String c (s' ++ w)) with (String c s' ++ w).
    rewrite (fence_app_blank _ _ Hw), H. simpl. auto.
  - change (String c s' ++ w) with (String c (s' ++ w)).
    rewrite sub_fence_step.
    change (String c (s' ++ w)) with (String c s' ++ w).
    rewrite (fence_app_blank _ _ Hw), e. simpl. f_equal. auto.
Qed.

Lemma sub_fence_blank_app (a s : string) :
  lstrip a = "" -> sub_fence (a ++ s) = a ++ sub_fence s.
Proof.
  induction a as [|c a IH]; [reflexivity|].
  intros H. apply blank_cons in H as [Hc Ha].
  change (String c a ++ s) with (String c (a ++ s)).
  rewrite sub_fence_step, fence_none, (IH Ha); [reflexivity|].
  destruct (Ascii.eqb_spec c Char.backtick) as [->|]; [discriminate Hc | reflexivity].
Qed.

Lemma sanitize_sql_wrapped (a s b : string) :
  lstrip a = "" -> lstrip b = "" ->
  sanitize_sql (a ++ s ++ b) = sanitize_sql s.
Proof.
  intros Ha Hb. unfold sanitize_sql.
  rewrite (sub_fence_blank_app _ _ Ha), (sub_fence_app_blank _ _ Hb).
  rewrite !remove_app.
  rewrite (remove_fixed _ _ (blank_no_backtick _ Ha)).
  rewrite (remove_fixed _ _ (blank_no_backtick _ Hb)).
  now apply strip_wrapped.
Qed.

Lemma strip_split (s : string) :
  exists a b, s = a ++ strip s ++ b /\ lstrip a = "" /\ lstrip b = "".
Proof.
  destruct (lstrip_split s) as (a & E & Ha).
  destruct (rstrip_split (lstrip s)) as (b & F & Hb).
  exists a, b. unfold strip. rewrite <- F. auto.
Qed.

Lemma sanitize_sql_strip (s : string) :
  sanitize_sql (strip s) = sanitize_sql s.
Proof.
  destruct (strip_split s) as (a & b & E & Ha & Hb).
  rewrite E at 2. symmetry. now apply sanitize_sql_wrapped.
Qed.

End WrapFacts.

(** ** How the gate, the generation and the formatting compose *)

Module Composition.

Import Str StrFacts StripFacts Re ReFacts Gate Spec GateFacts SanitizeFacts.
Import Pipeline Samples Bot WrapFacts.

(** The texts sanitize_sql leaves as they are: those without a backtick
    and without whitespace at either end. *)
Theorem sanitize_sql_fixed_points (s : string) :
  sanitize_sql s = s <->
  contains_char Char.backtick s = false /\ no_outer_space s.
Proof.
  split.
  - intros H. rewrite <- H. split.
    + apply sanitize_sql_no_backtick.
    + apply strip_no_outer_space.
  - intros [Hb Hs]. unfold sanitize_sql.
    rewrite (sub_fence_fixed _ Hb), (remove_fixed _ _ Hb).
    now apply strip_fixed.
Qed.

(** Whitespace around the input plays no part in sanitize_sql: wrapping
    the text in whitespace, or stripping it first, gives the same
    output. *)
Theorem sanitize_sql_outer_space (s : string) :
  sanitize_sql (strip s) = sanitize_sql s
  /\ forall a b, lstrip a = "" -> lstrip b = "" ->
       sanitize_sql (a ++ s ++ b) = sanitize_sql s.
Proof.
  split; [apply sanitize_sql_strip|].
  intros a b. apply sanitize_sql_wrapped.
Qed.

(** generate_sql in terms of what the completion service sent: the
    statement is the sanitized content, checked by validate_sql; the strip
    in groq_call makes no difference. *)
Theorem generate_sql_of_content (cfg : config)
    (completion : string -> N -> string -> string -> result string)
    (question : string) (schema : list (string * list string))
    (content : string) :
  completion (MODEL_NAME cfg) 0%N
    "You are a precise enterprise HR assistant."
    (sql_prompt question schema) = inr content ->
  generate_sql cfg completion question schema =
  match validate_sql (sanitize_sql content) with
  | inl e => inl e
  | inr _ => inr (sanitize_sql content)
  end.
Proof.
  intros H. unfold generate_sql, groq_call. rewrite H. cbv zeta.
  now rewrite sanitize_sql_strip.
Qed.

Lemma generate_sql_of_content_witness :
  generate_sql sample_config sample_completion "Who works here?" [] =
  match validate_sql (sanitize_sql (fenced_select ++ nl)) with
  | inl e => inl e
  | inr _ => inr (sanitize_sql (fenced_select ++ nl))
  end.
Proof.
  apply (generate_sql_of_content sample_config sample_completion
           "Who works here?" [] (fenced_select ++ nl)).
  reflexivity.
Defined.

(** A statement generate_sql returns is clean: no backtick, no whitespace
    at either end, its lower-cased form starts with select, and no
    forbidden word stands in it as a whole word. *)
Theorem generate_sql_clean (cfg : config)
    (completion : string -> N -> string -> string -> result string)
    (question : string) (schema : list (string * list string))
    (statement : string) :
  generate_sql cfg completion question schema = inr statement ->
  contains_char Char.backtick statement = false
  /\ no_outer_space statement
  /\ startswith (lower statement) "select" = true
  /\ ~ has_forbidden_word statement.
Proof.
  intros G.
  destruct (Behaviour.generate_sql_inv _ _ _ _ _ G) as [V (raw_sql & _ & ->)].
  assert (Hs : no_outer_space (sanitize_sql raw_sql))
    by apply strip_no_outer_space.
  split; [apply sanitize_sql_no_backtick|]. split; [exact Hs|].
  rewrite validate_sql_unfold in V.
  rewrite lstrip_lower, (lstrip_fixed _ (proj1 Hs)) in V.
  destruct (startswith (lower (sanitize_sql raw_sql)) "select");
    [|discriminate V].
  split; [reflexivity|]. simpl in V.
  destruct (FORBIDDEN_SQL_PATTERN (lower (sanitize_sql raw_sql))) eqn:F;
    [discriminate V|].
  intros Hw. apply forbidden_lower in Hw. rewrite Hw in F. discriminate F.
Qed.

Lemma generate_sql_clean_witness :
  contains_char Char.backtick "SELECT Name FROM dbo.Employees" = false
  /\ no_outer_space "SELECT Name FROM dbo.Employees"
  /\ startswith (lower "SELECT Name FROM dbo.Employees") "select" = true
  /\ ~ has_forbidden_word "SELECT Name FROM dbo.Employees".
Proof.
  apply (generate_sql_clean sample_config sample_completion
           "Who works here?" []).
  vm_compute. reflexivity.
Defined.

End Composition.

(** ** Experience: the two numbers of the answer *)

Module ExperienceFacts.

Import Experience.

Local Open Scope Z_scope.

(** For a date or a datetime, the answer spells two numbers: the time of
    day plays no part, the months run from 0 to 12, the two numbers
    bracket the number of days between the dates, the months read 12
    exactly on the last five days of a 365-day stretch, and a joining date
    after today gives negative years. *)
Theorem calculate_experience_parts (today d : Z) (us : N) :
  calculate_experience today (Date d)
  = (str_int (years_of (today - d)) ++ " years "
     ++ str_int (months_of (today - d)) ++ " months")%string
  /\ calculate_experience today (Datetime d us)
     = calculate_experience today (Date d)
  /\ 0 <= months_of (today - d) <= 12
  /\ 365 * years_of (today - d) + 30 * months_of (today - d) <= today - d
     <= 365 * years_of (today - d) + 30 * months_of (today - d) + 29
  /\ (months_of (today - d) = 12 <-> 360 <= (today - d) mod 365)
  /\ (today < d -> years_of (today - d) < 0).
Proof.
  split; [reflexivity|]. split; [reflexivity|].
  unfold years_of, months_of.
  remember (today - d) as days eqn:E.
  pose proof (Z.div_mod days 365) as A.
  pose proof (Z.mod_pos_bound days 365) as B.
  pose proof (Z.div_mod (days mod 365) 30) as C.
  pose proof (Z.mod_pos_bound (days mod 365) 30) as D.
  lia.
Qed.

End ExperienceFacts.

(** ** The typing effect: what is shown, frame by frame *)

Module ChatFacts.

Import Str StrFacts Chat.

Lemma no_space_snoc (w : string) (c : ascii) :
  no_space w = true -> Char.isspace c = false ->
  no_space (w ++ String c "") = true.
Proof.
  intros Hw Hc. induction w as [|a w IH]; simpl in *.
  - now rewrite Hc.
  - apply andb_true_iff in Hw as [Ha Hw]. now rewrite Ha, IH.
Qed.

Lemma snoc_not_empty (w : string) (c : ascii) : w ++ String c "" <> "".
Proof. destruct w; discriminate. Qed.

Lemma split_from_words (word s : string) :
  no_space word = true -> Forall proper_word (split_from word s).
Proof.
  revert word. induction s as [|c s IH]; intros word Hw; simpl.
  - destruct word; [constructor|].
    constructor; [split; [discriminate | exact Hw] | constructor].
  - destruct (Char.isspace c) eqn:Ec.
    + destruct word.
      * now apply IH.
      * constructor; [split; [discriminate | exact Hw] | now apply IH].
    + apply IH. now apply no_space_snoc.
Qed.

Lemma split_from_app (word w s : string) :
  no_space w = true -> split_from word (w ++ s) = split_from (word ++ w) s.
Proof.
  revert word. induction w as [|c w IH]; intros word H.
  - now rewrite StrFacts.app_nil_r.
  - simpl in H. apply andb_true_iff in H as [Hc Hw].
    apply negb_true_iff in Hc. simpl. rewrite Hc, (IH _ Hw).
    now rewrite StrFacts.app_assoc.
Qed.

Lemma split_spaced (words : list string) :
  Forall proper_word words -> split (spaced words) = words.
Proof.
  induction 1 as [|w words [Hne Hw] _ IH]; [reflexivity|].
  unfold split. simpl spaced. rewrite (split_from_app _ _ _ Hw). simpl.
  destruct w; [contradiction|]. f_equal. exact IH.
Qed.

Lemma split_from_started (word s : string) :
  word <> "" -> split_from word s <> [].
Proof.
  revert word. induction s as [|c s IH]; intros word H; simpl.
  - destruct word; [contradiction | discriminate].
  - destruct (Char.isspace c).
    + destruct word; [contradiction | discriminate].
    + apply IH, snoc_not_empty.
Qed.

Lemma split_blank (s : string) : split s = [] <-> lstrip s = "".
Proof.
  unfold split. induction s as [|c s IH]; simpl; [tauto|].
  destruct (Char.isspace c); [exact IH|]. split.
  - intros H. now apply split_from_started in H.
  - discriminate.
Qed.

Lemma typing_from_length (full_text : string) (words : list string) :
  List.length (typing_from full_text words) = List.length words.
Proof.
  revert full_text. induction words as [|w words IH]; intros full_text;
    simpl; [reflexivity | now rewrite IH].
Qed.

Lemma typing_from_nth (full_text : string) (words : list string) (i : nat) :
  i < List.length words ->
  nth i (typing_from full_text words) "" =
  full_text ++ spaced (firstn (S i) words).
Proof.
  revert full_text i. induction words as [|w words IH]; intros full_text i H.
  - simpl in H. lia.
  - destruct i as [|i].
    + reflexivity.
    + simpl in H. simpl nth. rewrite IH by lia.
      change (firstn (S (S i)) (w :: words)) with (w :: firstn (S i) words).
      simpl spaced. now rewrite !StrFacts.app_assoc.
Qed.

Lemma typing_from_last (full_text : string) (words : list string) :
  words <> [] ->
  List.last (typing_from full_text words) "" = full_text ++ spaced words.
Proof.
  revert full_text. induction words as [|w words IH]; intros full_text H;
    [contradiction|].
  destruct words as [|w' words]; [reflexivity|].
  change (typing_from full_text (w :: w' :: words))
    with ((full_text ++ w ++ " ")
          :: typing_from (full_text ++ w ++ " ") (w' :: words)).
  change (List.last ((full_text ++ w ++ " ")
                     :: typing_from (full_text ++ w ++ " ") (w' :: words)) "")
    with (List.last (typing_from (full_text ++ w ++ " ") (w' :: words)) "").
  rewrite IH by discriminate.
  change (spaced (w :: w' :: words)) with (w ++ " " ++ spaced (w' :: words)).
  now rewrite !StrFacts.app_assoc.
Qed.

(** The frames of the typing effect: one per word of the answer; the
    frame after a word shows the words so far, each followed by one space;
    and nothing at all is shown exactly when the answer is blank. *)
Theorem typing_effect_frames (answer : string) :
  List.length (typing_effect answer) = List.length (split answer)
  /\ (forall i, i < List.length (split answer) ->
        nth i (typing_effect answer) ""
        = spaced (firstn (S i) (split answer)))
  /\ (typing_effect answer = [] <-> lstrip answer = "").
Proof.
  unfold typing_effect. split; [apply typing_from_length|]. split.
  - intros i H. now rewrite typing_from_nth.
  - rewrite <- split_blank. destruct (split answer); simpl; split;
      (reflexivity || discriminate).
Qed.

(** The words of split are non-empty and free of whitespace, and the text
    the typing effect ends on has the words of the answer and no others:
    the whitespace between them, line breaks included, has become single
    spaces. *)
Theorem typing_effect_keeps_words (answer : string) :
  Forall proper_word (split answer)
  /\ List.last (typing_effect answer) "" = spaced (split answer)
  /\ split (spaced (split answer)) = split answer.
Proof.
  assert (W : Forall proper_word (split answer))
    by (apply split_from_words; reflexivity).
  split; [exact W|]. split; [|now apply split_spaced].
  unfold typing_effect.
  destruct (split answer) as [|w words] eqn:E; [reflexivity|].
  now rewrite typing_from_last by discriminate.
Qed.

End ChatFacts.

(** ** sanitize_sql only deletes *)

Module DeletionFacts.

Import Str Re Gate Deletion SanitizeFacts.

Lemma subsequence_refl (s : string) : subsequence s s.
Proof. induction s; constructor; assumption. Qed.

Lemma subsequence_trans (a b c : string) :
  subsequence a b -> subsequence b c -> subsequence a c.
Proof.
  intros Hab Hbc. revert a Hab.
  induction Hbc as [|x b c Hbc IH|x b c Hbc IH]; intros a Hab.
  - exact Hab.
  - inversion Hab; subst.
    + apply sub_keep. now apply IH.
    + apply sub_drop. now apply IH.
  - apply sub_drop. now apply IH.
Qed.

Lemma subsequence_length (t s : string) :
  subsequence t s -> String.length t <= String.length s.
Proof. induction 1; simpl; lia. Qed.

Lemma lstrip_deletes (s : string) : subsequence (lstrip s) s.
Proof.
  induction s as [|c s IH]; simpl; [constructor|].
  destruct (Char.isspace c); [now apply sub_drop | apply subsequence_refl].
Qed.

Lemma rstrip_deletes (s : string) : subsequence (rstrip s) s.
Proof.
  induction s as [|c s IH]; simpl; [constructor|].
  destruct (rstrip s) as [|d r].
  - destruct (Char.isspace c); [now apply sub_drop | now apply sub_keep].
  - now apply sub_keep.
Qed.

Lemma remove_deletes (c : ascii) (s : string) : subsequence (remove c s) s.
Proof.
  induction s as [|a s IH]; simpl; [constructor|].
  destruct (Ascii.eqb a c); [now apply sub_drop | now apply sub_keep].
Qed.

Lemma literal_ci_deletes (lit s rest : string) :
  literal_ci lit s = Some rest -> subsequence rest s.
Proof.
  revert s. induction lit as [|a lit IH]; intros s H; simpl in H.
  - injection H as <-. apply subsequence_refl.
  - destruct s as [|b s]; [discriminate|].
    destruct (Ascii.eqb a (Char.lower b)); [|discriminate].
    apply sub_drop. now apply IH.
Qed.

Lemma fence_deletes (s rest : string) :
  fence s = Some rest -> subsequence rest s.
Proof.
  unfold fence. destruct (literal_ci "```sql" s) as [r|] eqn:E.
  - intros H. injection H as <-. now apply literal_ci_deletes in E.
  - apply literal_ci_deletes.
Qed.

Lemma sub_fence_deletes (s : string) : subsequence (sub_fence s) s.
Proof.
  funelim (sub_fence s).
  - constructor.
  - apply (subsequence_trans _ rest); [assumption | now apply fence_deletes].
  - now apply sub_keep.
Qed.

(** sanitize_sql only deletes characters: its output is the input with
    some characters left out, in the same order, so it is never longer,
    and it is the whole input only when there was nothing to remove. *)
Theorem sanitize_sql_only_deletes (s : string) :
  subsequence (sanitize_sql s) s
  /\ String.length (sanitize_sql s) <= String.length s
  /\ (String.length (sanitize_sql s) = String.length s -> sanitize_sql s = s).
Proof.
  assert (D : subsequence (sanitize_sql s) s).
  { unfold sanitize_sql, strip.
    eapply subsequence_trans; [apply rstrip_deletes|].
    eapply subsequence_trans; [apply lstrip_deletes|].
    eapply subsequence_trans; [apply remove_deletes|].
    apply sub_fence_deletes. }
  split; [exact D|]. split; [now apply subsequence_length|].
  generalize (sanitize_sql s) D. clear D.
  intros t D. induction D as [|c t s D IH|c t s D IH]; simpl; intros H.
  - reflexivity.
  - f_equal. apply IH. lia.
  - apply subsequence_length in D. lia.
Qed.

End DeletionFacts.
